(** * SpecialConstraintToPenalty: a shallow embedding

    Embedding of
    [qiskit_optimization/converters/special_constraint_to_penalty.py].

    The converter is a Python object with private fields; problems are
    mutable objects the converter copies, creates and fills in place.  The
    embedding threads a [World] (the object store, the fields of the
    converter, the records of the logger and the console) through a small
    state-and-exception monad, and the methods are written in it statement
    by statement.

    Numbers.  The value of a Python number is an exact canonical rational
    ([Qc]), and a right-hand side, which may be an object of any numeric
    type, carries what [isinstance(_, float)] tells about it.  The sums and
    products of [convert] are written operation by operation, in the order
    of the code.  [math.fsum] is the one place where the code asks for a sum
    rounded once: the exact sum is rounded to the nearest binary64 value,
    and a sum beyond the range of binary64 raises [OverflowError].
    Infinities and NaN are outside this model.

    The file has two parts: the definitions (the problem model, the
    converter, what its loops compute, example problems), then the lemmas
    and the theorems. *)

From Stdlib Require Import QArith Qcanon Ascii.
From stdpp Require Import gmap strings list fin_maps numbers.

Local Open Scope Qc_scope.

(** * Part I: definitions *)

(** ** Numbers *)

Definition Qcabs (x : Qc) : Qc := if decide (x < 0) then - x else x.

(** [float.is_integer]. *)
Definition is_integer (x : Qc) : bool := bool_decide (Qden x = 1%positive).

(** A Python number with what [isinstance(_, float)] answers for it: a
    [float] (or an instance of a subclass, as [numpy.float64]), or a number
    of another type ([int], [Fraction], [numpy.float32], ...). *)
Inductive number :=
  | Float (q : Qc)
  | NotFloat (q : Qc).

Global Instance number_eq_dec : EqDecision number.
Proof. solve_decision. Defined.

Definition value (x : number) : Qc :=
  match x with Float q | NotFloat q => q end.

(** [isinstance(term, float)]. *)
Definition isinstance_float (x : number) : bool :=
  match x with Float _ => true | NotFloat _ => false end.

(** The sum of a list of numbers, with no rounding. *)
Definition exact_sum (xs : list Qc) : Qc := foldr Qcplus 0 xs.

(** Rounding to binary64 (53 significant bits, exponents of the last bit
    from -1074 to 971), to the nearest value and to the even one of two
    nearest values. *)

(** The fraction [(n / d) / 2^k], as numerator and denominator. *)
Definition scaled_by (k n d : Z) : Z * Z :=
  if decide (0 ≤ k)%Z then (n, d * 2 ^ k)%Z else (n * 2 ^ (- k), d)%Z.

(** The integer nearest to [num / den]; the even one of two nearest. *)
Definition round_half_even (num den : Z) : Z :=
  let q := (num `div` den)%Z in
  let r := (num `mod` den)%Z in
  if decide (2 * r < den)%Z then q
  else if decide (den < 2 * r)%Z then (q + 1)%Z
  else if Z.even q then q else (q + 1)%Z.

(** The rational [m * 2^k]. *)
Definition times_pow2 (m k : Z) : Qc :=
  if decide (0 ≤ k)%Z then Qc_of_Z (m * 2 ^ k)
  else Q2Qc (Qmake m (Z.to_pos (2 ^ (- k)))).

(** The binary64 value nearest to [x]: [e] is the exponent of the leading
    bit of [|x|], [k] the exponent of the last bit kept, [m] the rounded
    significand.  There is no value when the rounded magnitude reaches
    [2^1024]. *)
Definition round_double (x : Qc) : option Qc :=
  let n := Z.abs (Qnum x) in
  let d := Zpos (Qden x) in
  if decide (n = 0)%Z then Some 0
  else
    let e0 := (Z.log2 n - Z.log2 d)%Z in
    let e := if decide ((scaled_by e0 n d).2 ≤ (scaled_by e0 n d).1)%Z
             then e0 else (e0 - 1)%Z in
    let k := Z.max (e - 52) (- 1074) in
    let m := round_half_even (scaled_by k n d).1 (scaled_by k n d).2 in
    if decide (2 ^ 1024 ≤ m * 2 ^ k)%Z then None
    else Some (times_pow2 (Z.sgn (Qnum x) * m) k).

(** [math.fsum] on non-negative floats, as the estimator calls it: the sum
    of the values, rounded once; [None] stands for its [OverflowError]. *)
Definition fsum (xs : list Qc) : option Qc := round_double (exact_sum xs).

Arguments round_double : simpl never.

(** ** The problem model the converter consumes

    The classes of this part live in the package [problems], which the
    converter imports.  They are modelled with the attributes the converter
    reads and the methods it calls. *)

(** Modelled from the spec: [Variable.Type] ([problems/variable.py]).
    Section 3 has the types Continuous, Binary and Integer.  [OTHER] stands
    for any other value of the attribute [vartype], which [convert] rejects
    in its last branch; it carries the text [format] prints for it. *)
Inductive VarType :=
  | CONTINUOUS
  | BINARY
  | INTEGER
  | OTHER (repr : string).

Global Instance VarType_eq_dec : EqDecision VarType.
Proof. solve_decision. Defined.

(** Modelled from the spec: [Variable] ([problems/variable.py]; the name is
    reserved in Rocq), with the attributes [convert] reads: [name],
    [lowerbound], [upperbound], [vartype]. *)
Record Var := mkVariable {
  name : string;
  lowerbound : Qc;
  upperbound : Qc;
  vartype : VarType;
}.

Global Instance Var_eq_dec : EqDecision Var.
Proof. solve_decision. Defined.

(** Modelled from the spec: the sparse coefficient storage of
    [LinearExpression] (keys: variable indices) and [QuadraticExpression]
    (keys: pairs of variable indices, one entry per unordered pair).  The
    values are stored with one numeric type; [float_values] tells whether
    they are floats, as [isinstance(_, float)] sees them. *)
Record Expression (K : Type) `{Countable K} := mkExpression {
  coefficients : gmap K Qc;
  float_values : bool;
}.
Arguments mkExpression {K _ _} _ _.
Arguments coefficients {K _ _} _.
Arguments float_values {K _ _} _.

Abbreviation LinearExpression := (Expression nat).
Abbreviation QuadraticExpression := (Expression (nat * nat)).

Global Instance Expression_eq_dec `{Countable K} : EqDecision (Expression K).
Proof. solve_decision. Defined.

Section expression.
Context `{Countable K}.

(** Modelled from the spec: [to_dict()], a new dictionary; section 3: only
    nonzero entries are present. *)
Definition to_dict (e : Expression K) : gmap K Qc :=
  filter (λ kv, kv.2 ≠ 0) (coefficients e).

(** Modelled from the spec: an expression built from a dictionary of
    coefficients, as the methods that take dictionaries build them: the
    values are stored as floats. *)
Definition of_dict (d : gmap K Qc) : Expression K := mkExpression d true.

(** The coefficient a dictionary gives a key: 0 when the key is absent. *)
Definition coefficient (d : gmap K Qc) (k : K) : Qc := default 0 (d !! k).
End expression.

(** Modelled from the spec: a linear expression built from a dense
    coefficient vector. *)
Definition linear_of_list (l : list Qc) : LinearExpression :=
  of_dict (map_seq 0 l).

Definition matrix_entry (rows : list (list Qc)) (i j : nat) : Qc :=
  default 0 (rows !! i ≫= (.!! j)).

(** Modelled from the spec: a quadratic expression built from a dense
    coefficient matrix; section 3: symmetric terms are merged into one entry
    per unordered pair, here the pair [(i, j)] with [i <= j]. *)
Definition quadratic_of_matrix (rows : list (list Qc)) : QuadraticExpression :=
  of_dict (list_to_map
    (flat_map (λ '(i, row),
       flat_map (λ '(j, v),
         if decide (i < j)%nat then [((i, j), v + matrix_entry rows j i)]
         else if decide (i = j) then [((i, j), v)]
         else [])
         (imap pair row))
       (imap pair rows))).

(** Modelled from the spec: [Constraint.Sense]. *)
Inductive ConstraintSense := LE | GE | EQ.

Global Instance ConstraintSense_eq_dec : EqDecision ConstraintSense.
Proof. solve_decision. Defined.

(** Modelled from the spec: [LinearConstraint], with the attributes [_name],
    [_linear], [_sense], [_rhs] (also read through the properties [linear]
    and [rhs]).  The right-hand side is the object the constraint was built
    with, of whatever numeric type. *)
Record LinearConstraint := mkLinearConstraint {
  lc_name : string;
  lc_linear : LinearExpression;
  lc_sense : ConstraintSense;
  lc_rhs : number;
}.

Global Instance LinearConstraint_eq_dec : EqDecision LinearConstraint.
Proof. solve_decision. Defined.

(** Modelled from the spec: [QuadraticConstraint], with the attributes
    [_name], [_linear], [_quadratic], [_sense], [_rhs]. *)
Record QuadraticConstraint := mkQuadraticConstraint {
  qc_name : string;
  qc_linear : LinearExpression;
  qc_quadratic : QuadraticExpression;
  qc_sense : ConstraintSense;
  qc_rhs : Qc;
}.

Global Instance QuadraticConstraint_eq_dec : EqDecision QuadraticConstraint.
Proof. solve_decision. Defined.

(** Modelled from the spec: [QuadraticObjective.Sense]. *)
Inductive ObjSense := MINIMIZE | MAXIMIZE.

Global Instance ObjSense_eq_dec : EqDecision ObjSense.
Proof. solve_decision. Defined.

(** Modelled from the spec: the [value] of a sense; section 4.4: +1 for
    Minimize, -1 for Maximize. *)
Definition ObjSense_value (s : ObjSense) : Qc :=
  match s with MINIMIZE => 1 | MAXIMIZE => - 1 end.

(** Modelled from the spec: [QuadraticObjective], with the attributes
    [constant], [linear], [quadratic], [sense]. *)
Record QuadraticObjective := mkQuadraticObjective {
  obj_constant : Qc;
  obj_linear : LinearExpression;
  obj_quadratic : QuadraticExpression;
  obj_sense : ObjSense;
}.

Global Instance QuadraticObjective_eq_dec : EqDecision QuadraticObjective.
Proof. solve_decision. Defined.

(** Modelled from the spec: [QuadraticProgram], with the attributes [name],
    [variables], [objective], [linear_constraints],
    [quadratic_constraints]. *)
Record QuadraticProgram := mkQuadraticProgram {
  qp_name : string;
  variables : list Var;
  objective : QuadraticObjective;
  linear_constraints : list LinearConstraint;
  quadratic_constraints : list QuadraticConstraint;
}.

Global Instance QuadraticProgram_eq_dec : EqDecision QuadraticProgram.
Proof. solve_decision. Defined.

Definition get_num_vars (qp : QuadraticProgram) : nat := length (variables qp).

(** Modelled from the spec: [QuadraticProgram(name=...)], a problem with no
    variable, no constraint and the objective [minimize 0]. *)
Definition QuadraticProgram_new (nm : string) : QuadraticProgram :=
  mkQuadraticProgram nm []
    (mkQuadraticObjective 0 (of_dict ∅) (of_dict ∅) MINIMIZE) [] [].

(** Modelled from the spec: a new variable is appended.  The names given by
    [convert] are those of a source problem, distinct and not empty, so no
    name is made up and none clashes. *)
Definition add_variable (x : Var) (qp : QuadraticProgram) : QuadraticProgram :=
  mkQuadraticProgram (qp_name qp) (variables qp ++ [x]) (objective qp)
    (linear_constraints qp) (quadratic_constraints qp).

(** Modelled from the spec: [continuous_var(lowerbound, upperbound, name)]. *)
Definition continuous_var (lb ub : Qc) (nm : string) : QuadraticProgram → QuadraticProgram :=
  add_variable (mkVariable nm lb ub CONTINUOUS).

(** Modelled from the spec: [binary_var(name)].  It takes a name only: the
    new variable ranges over 0..1. *)
Definition binary_var (nm : string) : QuadraticProgram → QuadraticProgram :=
  add_variable (mkVariable nm 0 1 BINARY).

(** Modelled from the spec: [integer_var(lowerbound, upperbound, name)]. *)
Definition integer_var (lb ub : Qc) (nm : string) : QuadraticProgram → QuadraticProgram :=
  add_variable (mkVariable nm lb ub INTEGER).

(** Modelled from the spec: [linear_constraint(linear, sense, rhs, name)]
    appends a constraint built from the dictionary. *)
Definition linear_constraint (lin : gmap nat Qc) (s : ConstraintSense) (rhs : number)
    (nm : string) (qp : QuadraticProgram) : QuadraticProgram :=
  mkQuadraticProgram (qp_name qp) (variables qp) (objective qp)
    (linear_constraints qp ++ [mkLinearConstraint nm (of_dict lin) s rhs])
    (quadratic_constraints qp).

(** Modelled from the spec:
    [quadratic_constraint(linear, quadratic, sense, rhs, name)]. *)
Definition quadratic_constraint (lin : gmap nat Qc) (quad : gmap (nat * nat) Qc)
    (s : ConstraintSense) (rhs : Qc) (nm : string) (qp : QuadraticProgram)
    : QuadraticProgram :=
  mkQuadraticProgram (qp_name qp) (variables qp) (objective qp)
    (linear_constraints qp)
    (quadratic_constraints qp
       ++ [mkQuadraticConstraint nm (of_dict lin) (of_dict quad) s rhs]).

(** Modelled from the spec: [minimize(constant, linear, quadratic)] and
    [maximize(constant, linear, quadratic)] replace the objective.  The keys
    of the dictionaries are variable indices; those [convert] passes are the
    keys of the source objective and the reference variables 0 and 1 of the
    templates, which a problem with a constraint on two variables has. *)
Definition set_objective (s : ObjSense) (c : Qc) (lin : gmap nat Qc)
    (quad : gmap (nat * nat) Qc) (qp : QuadraticProgram) : QuadraticProgram :=
  mkQuadraticProgram (qp_name qp) (variables qp)
    (mkQuadraticObjective c (of_dict lin) (of_dict quad) s)
    (linear_constraints qp) (quadratic_constraints qp).

Definition minimize := set_objective MINIMIZE.
Definition maximize := set_objective MAXIMIZE.

(** ** Special-constraint templates *)

(** Modelled from the spec: [SpecialConstraint]
    ([problems/special_constraint.py]), a template over the variables of its
    own [quadratic_program], with the penalty that replaces it; [convert]
    reads [penalty_constant], [penalty_linear_expression] and
    [penalty_quadratic_expression]. *)
Record SpecialConstraint := mkSpecialConstraint {
  sc_quadratic_program : QuadraticProgram;
  sc_linear : LinearExpression;
  sc_sense : ConstraintSense;
  sc_rhs : Qc;
  penalty_constant : Qc;
  penalty_linear_expression : LinearExpression;
  penalty_quadratic_expression : QuadraticExpression;
}.

(** Modelled from the spec: the constructor of [SpecialConstraint].  Its
    arguments are, in the order of the calls in [__init__]: the reference
    problem, the reference coefficient vector, the comparison sense, the
    right-hand side, the constant penalty offset, the penalty linear
    coefficient vector and the penalty quadratic coefficient matrix, all over
    the reference variables (section 3). *)
Definition SpecialConstraint_new (qp : QuadraticProgram) (lin : list Qc)
    (s : ConstraintSense) (rhs pc : Qc) (pl : list Qc) (pq : list (list Qc))
    : SpecialConstraint :=
  mkSpecialConstraint qp (linear_of_list lin) s rhs pc
    (linear_of_list pl) (quadratic_of_matrix pq).

(** [self._qb] (lines 48-51): three binary variables, with the names given
    to unnamed variables. *)
Definition _qb : QuadraticProgram :=
  binary_var "x2" (binary_var "x1" (binary_var "x0" (QuadraticProgram_new ""))).

(** The two templates of line 52 and line 53. *)
Definition pattern_A : SpecialConstraint :=
  SpecialConstraint_new _qb [1; 1; 0] LE 1 1 [0; 0; 0]
    [[0; 1; 0]; [0; 0; 0]; [0; 0; 0]].

Definition pattern_B : SpecialConstraint :=
  SpecialConstraint_new _qb [1; 1; 0] GE 1 1 [- 1; - 1; 0]
    [[0; 1; 0]; [0; 0; 0]; [0; 0; 0]].

(** [self._special_constraints], fixed by [__init__]. *)
Definition _special_constraints : list SpecialConstraint := [pattern_A; pattern_B].

(** [SpecialConstraint.is_special_constraint], which [convert] uses as a
    test of a template against a constraint: a boolean function of the two.
    The converter takes it as a parameter. *)
Class Matcher := is_special_constraint : SpecialConstraint → LinearConstraint → bool.

(** Modelled from the spec: [SpecialConstraint.is_special_constraint].
    Section 4.2: a constraint matches a template when it has the same count
    of nonzero linear coefficients with the same values, the identical
    comparison sense, and a right-hand side equal to the template's; which
    variables carry the coefficients plays no role.  This test instantiates
    the parameter in the examples. *)
Definition matches : Matcher := λ sc c,
  bool_decide ((map_to_list (to_dict (lc_linear c))).*2
               ≡ₚ (map_to_list (to_dict (sc_linear sc))).*2)
  && bool_decide (lc_sense c = sc_sense sc)
  && bool_decide (value (lc_rhs c) = sc_rhs sc).

(** ** Objects, the fields of the converter, and effects *)

(** References to [QuadraticProgram] objects.  Variables, constraints and
    expressions are reached through the problem that owns them only, and the
    methods above build them from numbers, strings, enumeration members and
    dictionaries made for the call; so a problem object with what it owns is
    one cell of the store. *)
Abbreviation loc := positive.

(** What [print] writes. *)
Inductive output :=
  | out_str (s : string)
  | out_dict (d : gmap nat Qc).

(** The fields of a [SpecialConstraintToPenalty] instance that change. *)
Record Converter := mkConverter {
  _src : option loc;
  _dst : option loc;
  _penalty : option Qc;
  _should_define_penalty : bool;
}.

Record World := mkWorld {
  heap : gmap loc QuadraticProgram;
  self : Converter;
  log : list (string * Qc);      (* records of [logger.warning] *)
  stdout : list output;
}.

Inductive exn :=
  | QiskitOptimizationError (msg : string)
  | AttributeError (msg : string)
  | TypeError (msg : string)
  | OverflowError (msg : string)
  | SystemError (msg : string).

Global Instance exn_eq_dec : EqDecision exn.
Proof. solve_decision. Defined.

Inductive result (A : Type) :=
  | Ok (a : A)
  | Raise (e : exn).
Arguments Ok {A} a.
Arguments Raise {A} e.

Global Instance result_eq_dec `{EqDecision A} : EqDecision (result A).
Proof. solve_decision. Defined.

(** State and exceptions: a raised exception keeps the state reached. *)
Definition M (A : Type) : Type := World → result A * World.

Global Instance M_ret : MRet M := λ A a w, (Ok a, w).

Global Instance M_bind : MBind M := λ A B f m w,
  match m w with
  | (Ok a, w') => f a w'
  | (Raise e, w') => (Raise e, w')
  end.

Definition raise {A} (e : exn) : M A := λ w, (Raise e, w).

Definition get_self : M Converter := λ w, (Ok (self w), w).

Definition set_self (c : Converter) : M unit := λ w,
  (Ok tt, mkWorld (heap w) c (log w) (stdout w)).

(** A new object: a reference no live object has. *)
Definition alloc (qp : QuadraticProgram) : M loc := λ w,
  let l := fresh (dom (heap w)) in
  (Ok l, mkWorld (<[l := qp]> (heap w)) (self w) (log w) (stdout w)).

(** Reading through a reference.  Python keeps referenced objects alive, so
    the failure case is for references no object was ever created at. *)
Definition load (l : loc) : M QuadraticProgram := λ w,
  match heap w !! l with
  | Some qp => (Ok qp, w)
  | None => (Raise (SystemError "dangling reference"), w)
  end.

(** In-place update of the object behind a reference. *)
Definition update (l : loc) (f : QuadraticProgram → QuadraticProgram) : M unit := λ w,
  (Ok tt, mkWorld (alter f l (heap w)) (self w) (log w) (stdout w)).

Definition print (o : output) : M unit := λ w,
  (Ok tt, mkWorld (heap w) (self w) (log w) (stdout w ++ [o])).

Definition logger_warning (fmt : string) (arg : Qc) : M unit := λ w,
  (Ok tt, mkWorld (heap w) (self w) (log w ++ [(fmt, arg)]) (stdout w)).

Fixpoint for_each {A} (xs : list A) (body : A → M unit) : M unit :=
  match xs with
  | [] => mret tt
  | x :: xs => body x ;; for_each xs body
  end.

(** A loop that reassigns local variables: they are its accumulator. *)
Fixpoint for_fold {A B} (xs : list A) (body : B → A → M B) (acc : B) : M B :=
  match xs with
  | [] => mret acc
  | x :: xs => acc ← body acc x; for_fold xs body acc
  end.

(** Field assignments. *)
Definition set_src (l : option loc) : M unit :=
  c ← get_self;
  set_self (mkConverter l (_dst c) (_penalty c) (_should_define_penalty c)).

Definition set_dst (l : option loc) : M unit :=
  c ← get_self;
  set_self (mkConverter (_src c) l (_penalty c) (_should_define_penalty c)).

Definition set_penalty (p : option Qc) : M unit :=
  c ← get_self;
  set_self (mkConverter (_src c) (_dst c) p (_should_define_penalty c)).

Definition set_should_define_penalty (b : bool) : M unit :=
  c ← get_self;
  set_self (mkConverter (_src c) (_dst c) (_penalty c) b).

(** [self._src.<attr>]: [self._src] is [None] until the first [convert]. *)
Definition self_src (attr : string) : M QuadraticProgram :=
  c ← get_self;
  match _src c with
  | None => raise (AttributeError ("'NoneType' object has no attribute '" +:+ attr +:+ "'"))
  | Some l => load l
  end.

(** ** The converter *)

(** The property [penalty] and its setter. *)
Definition penalty : M (option Qc) :=
  c ← get_self; mret (_penalty c).

Definition penalty_setter (p : option Qc) : M unit :=
  set_penalty p ;;
  set_should_define_penalty (bool_decide (p = None)).

(** [__init__]: the fields that change; [_qb] and [_special_constraints]
    are the constants above. *)
Definition __init__ (p : option Qc) : M unit :=
  set_src None ;;
  set_dst None ;;
  penalty_setter p.

Definition default_penalty : Qc := Qc_of_Z 100000.

(** The format string of the warning; it has a line feed after the first
    sentence. *)
Definition warning_text : string :=
  "Warning: Using %f for the penalty coefficient because a float coefficient exists in constraints. "
  +:+ String "010"%char
        "The value could be too small. If so, set the penalty coefficient manually.".

Definition dict_values `{Countable K} (d : gmap K Qc) : list Qc := (map_to_list d).*2.

(** [e.to_dict().values()], each value with its type. *)
Definition to_dict_values `{Countable K} (e : Expression K) : list number :=
  (if float_values e then Float else NotFloat) <$> dict_values (to_dict e).

(** The error [math.fsum] raises. *)
Definition overflow_error : exn := OverflowError "intermediate overflow in fsum".

Definition _auto_define_penalty : M Qc :=
  (* Check coefficients of constraints. *)
  src ← self_src "linear_constraints";
  let terms :=
    flat_map (λ c, lc_rhs c :: to_dict_values (lc_linear c))
      (linear_constraints src) in
  if existsb (λ term, isinstance_float term && negb (is_integer (value term))) terms then
    logger_warning warning_text default_penalty ;;
    mret default_penalty
  else
    src ← self_src "objective";
    let penalties :=
      [1] ++ (Qcabs <$> dict_values (to_dict (obj_linear (objective src))))
          ++ (Qcabs <$> dict_values (to_dict (obj_quadratic (objective src)))) in
    match fsum penalties with
    | Some v => mret v
    | None => raise overflow_error
    end.

(** [d[j] = d.get(j, 0.0) + v]. *)
Definition dict_add `{Countable K} (v : Qc) (j : K) (d : gmap K Qc) : gmap K Qc :=
  <[j := default 0 (d !! j) + v]> d.

(** [sense * penalty * coef]; a penalty of [None] cannot be multiplied. *)
Definition scaled (sense : Qc) (penalty : option Qc) (coef : Qc) : M Qc :=
  match penalty with
  | Some p => mret (sense * p * coef)
  | None => raise (TypeError "unsupported operand type(s) for *: 'int' and 'NoneType'")
  end.

(** [for j, coef in row.items(): d[j] = d.get(j, 0.0) + sense * penalty * coef] *)
Definition add_row `{Countable K} (sense : Qc) (penalty : option Qc)
    (row d : gmap K Qc) : M (gmap K Qc) :=
  for_fold (map_to_list row)
    (λ d '(j, coef), v ← scaled sense penalty coef; mret (dict_add v j d)) d.

Section converter.
Context {matcher : Matcher}.

(** Lines 81-88, the body of the loop over [self._src.variables]. *)
Definition set_variable (dst : loc) (x : Var) : M unit :=
  match vartype x with
  | CONTINUOUS => update dst (continuous_var (lowerbound x) (upperbound x) (name x))
  | BINARY => update dst (binary_var (name x))
  | INTEGER => update dst (integer_var (lowerbound x) (upperbound x) (name x))
  | OTHER repr => raise (QiskitOptimizationError ("Unsupported vartype: " +:+ repr))
  end.

(** Lines 98-119, the body of the loop over [self._src.linear_constraints]:
    the first template that matches, or the [else] of the inner loop. *)
Definition convert_linear_constraint (dst : loc) (sense : Qc) (penalty : option Qc)
    (acc : Qc * gmap nat Qc * gmap (nat * nat) Qc) (constraint : LinearConstraint)
    : M (Qc * gmap nat Qc * gmap (nat * nat) Qc) :=
  let '(offset, linear, quadratic) := acc in
  match List.find (λ sc, is_special_constraint sc constraint) _special_constraints with
  | Some special_constraint =>
      print (out_str "***Special!***") ;;
      print (out_dict (to_dict (lc_linear constraint))) ;;
      (* add constant penalty *)
      v ← scaled sense penalty (penalty_constant special_constraint);
      let offset := offset + v in
      (* add linear penalty *)
      linear ← add_row sense penalty
                 (to_dict (penalty_linear_expression special_constraint)) linear;
      (* add quadratic penalty *)
      quadratic ← add_row sense penalty
                    (to_dict (penalty_quadratic_expression special_constraint)) quadratic;
      mret (offset, linear, quadratic)
  | None =>
      print (out_str "+++ Not Special +++") ;;
      print (out_dict (to_dict (lc_linear constraint))) ;;
      update dst (linear_constraint (to_dict (lc_linear constraint))
                    (lc_sense constraint) (lc_rhs constraint) (lc_name constraint)) ;;
      mret (offset, linear, quadratic)
  end.

(** Line 124, the body of the loop over [self._src.quadratic_constraints]. *)
Definition copy_quadratic_constraint (dst : loc) (constraint : QuadraticConstraint) : M unit :=
  update dst (quadratic_constraint (to_dict (qc_linear constraint))
                (to_dict (qc_quadratic constraint)) (qc_sense constraint)
                (qc_rhs constraint) (qc_name constraint)).

(** Lines 79-134: [convert] once the local [penalty] is bound. *)
Definition convert_body (penalty : option Qc) (dst : loc) : M loc :=
  (* Set variables *)
  src ← self_src "variables";
  for_each (variables src) (set_variable dst) ;;
  (* get original objective terms *)
  src ← self_src "objective";
  let offset := obj_constant (objective src) in
  let linear := to_dict (obj_linear (objective src)) in
  let quadratic := to_dict (obj_quadratic (objective src)) in
  let sense := ObjSense_value (obj_sense (objective src)) in
  (* convert linear constraints into penalty terms *)
  src ← self_src "linear_constraints";
  '(offset, linear, quadratic) ←
    for_fold (linear_constraints src) (convert_linear_constraint dst sense penalty)
      (offset, linear, quadratic);
  (* convert quadratic constraints into penalty terms *)
  src ← self_src "quadratic_constraints";
  for_each (quadratic_constraints src) (copy_quadratic_constraint dst) ;;
  src ← self_src "objective";
  match obj_sense (objective src) with
  | MINIMIZE => update dst (minimize offset linear quadratic)
  | MAXIMIZE => update dst (maximize offset linear quadratic)
  end ;;
  (* Update the penalty to the one just used *)
  set_penalty penalty ;;
  mret dst.

(** Lines 70-77, then the body; [resolve] is how the local [penalty] is
    obtained. *)
Definition convert_from (resolve : M (option Qc)) (problem : loc) : M loc :=
  (* create empty QuadraticProgram model *)
  p ← load problem;
  src ← alloc p;                          (* copy.deepcopy(problem) *)
  set_src (Some src) ;;
  dst ← alloc (QuadraticProgram_new (qp_name p));
  set_dst (Some dst) ;;
  penalty ← resolve;
  convert_body penalty dst.

(** Lines 74-77: if no penalty was given, set the penalty coefficient by
    [_auto_define_penalty]. *)
Definition resolve_penalty : M (option Qc) :=
  c ← get_self;
  if _should_define_penalty c then
    p ← _auto_define_penalty; mret (Some p)
  else
    mret (_penalty c).

Definition convert (problem : loc) : M loc :=
  convert_from resolve_penalty problem.

(** The problem [convert] returns, if it returns one. *)
Definition converted (problem : loc) (w : World) : option QuadraticProgram :=
  match convert problem w with
  | (Ok dst, w') => heap w' !! dst
  | (Raise _, _) => None
  end.

(** What may happen to a converter between two observations: a call of
    [convert], with any argument and any outcome, or anything that leaves
    the fields of the converter alone (calls of [interpret], of the getter
    [penalty], changes to problems). *)
Definition call (w w' : World) : Prop :=
  (∃ problem, w' = (convert problem w).2) ∨ self w' = self w.
End converter.

Definition interpret (x : list Qc) : M (list Qc) :=
  let n := length x in
  src ← self_src "get_num_vars";
  if decide (n ≠ get_num_vars src) then
    raise (QiskitOptimizationError
      "The number of variables in the passed result differs from that of the original problem.")
  else
    mret x.                                (* np.asarray(x) *)

(** ** What the methods compute

    Pure functions of the source problem: what the loops of [convert] leave
    in the destination, in the accumulators and on the console, and what the
    estimator returns.  Part II relates them to the methods. *)

(** What one source variable becomes in the destination. *)
Definition dst_var (x : Var) : option Var :=
  match vartype x with
  | CONTINUOUS => Some (mkVariable (name x) (lowerbound x) (upperbound x) CONTINUOUS)
  | BINARY => Some (mkVariable (name x) 0 1 BINARY)
  | INTEGER => Some (mkVariable (name x) (lowerbound x) (upperbound x) INTEGER)
  | OTHER _ => None
  end.

Definition supported (x : Var) : bool :=
  match vartype x with
  | OTHER _ => false
  | _ => true
  end.

(** The destination variable for a source variable of a supported type. *)
Definition dst_variable (x : Var) : Var := default x (dst_var x).

Definition unsupported_error (x : Var) : exn :=
  QiskitOptimizationError ("Unsupported vartype: " +:+
    match vartype x with
    | CONTINUOUS => "Type.CONTINUOUS"
    | BINARY => "Type.BINARY"
    | INTEGER => "Type.INTEGER"
    | OTHER repr => repr
    end).

(** The loop over the variables, on the destination problem: it stops at
    the first variable of an unsupported type. *)
Fixpoint set_variables (xs : list Var) (D : QuadraticProgram) : result unit * QuadraticProgram :=
  match xs with
  | [] => (Ok tt, D)
  | x :: xs =>
      match dst_var x with
      | Some y => set_variables xs (add_variable y D)
      | None => (Raise (unsupported_error x), D)
      end
  end.

(** A penalty row folded into a dictionary, with the penalty [p]. *)
Definition add_row_pure `{Countable K} (sense p : Qc) (row d : gmap K Qc) : gmap K Qc :=
  fold_left (λ d '(j, coef), dict_add (sense * p * coef) j d) (map_to_list row) d.

(** The accumulators [offset], [linear], [quadratic]. *)
Definition Acc : Type := Qc * gmap nat Qc * gmap (nat * nat) Qc.

(** The penalty of a template folded into the accumulators. *)
Definition absorb (sense p : Qc) (sc : SpecialConstraint) (acc : Acc) : Acc :=
  let '(offset, linear, quadratic) := acc in
  (offset + sense * p * penalty_constant sc,
   add_row_pure sense p (to_dict (penalty_linear_expression sc)) linear,
   add_row_pure sense p (to_dict (penalty_quadratic_expression sc)) quadratic).

(** The accumulators before the loop over the constraints. *)
Definition initial_acc (P : QuadraticProgram) : Acc :=
  (obj_constant (objective P), to_dict (obj_linear (objective P)),
   to_dict (obj_quadratic (objective P))).

(** The constraint the destination receives for a constraint passed on. *)
Definition copy_lc (c : LinearConstraint) : LinearConstraint :=
  mkLinearConstraint (lc_name c) (of_dict (to_dict (lc_linear c))) (lc_sense c) (lc_rhs c).

Definition copy_qc (c : QuadraticConstraint) : QuadraticConstraint :=
  mkQuadraticConstraint (qc_name c) (of_dict (to_dict (qc_linear c)))
    (of_dict (to_dict (qc_quadratic c))) (qc_sense c) (qc_rhs c).

Definition add_linear_constraints (cs : list LinearConstraint) (D : QuadraticProgram)
    : QuadraticProgram :=
  mkQuadraticProgram (qp_name D) (variables D) (objective D)
    (linear_constraints D ++ cs) (quadratic_constraints D).

Definition add_quadratic_constraints (cs : list QuadraticConstraint) (D : QuadraticProgram)
    : QuadraticProgram :=
  mkQuadraticProgram (qp_name D) (variables D) (objective D)
    (linear_constraints D) (quadratic_constraints D ++ cs).

Definition same_linear_constraint (c c' : LinearConstraint) : Prop :=
  lc_name c' = lc_name c
  ∧ to_dict (lc_linear c') = to_dict (lc_linear c)
  ∧ lc_sense c' = lc_sense c
  ∧ lc_rhs c' = lc_rhs c.

Definition same_quadratic_constraint (c c' : QuadraticConstraint) : Prop :=
  qc_name c' = qc_name c
  ∧ to_dict (qc_linear c') = to_dict (qc_linear c)
  ∧ to_dict (qc_quadratic c') = to_dict (qc_quadratic c)
  ∧ qc_sense c' = qc_sense c
  ∧ qc_rhs c' = qc_rhs c.

(** The estimate as a function of the stored source problem: the test on
    the terms of the constraints, the sum, and with it the warnings logged. *)
Definition non_integral_terms (P : QuadraticProgram) : bool :=
  existsb (λ term, isinstance_float term && negb (is_integer (value term)))
    (flat_map (λ c, lc_rhs c :: to_dict_values (lc_linear c)) (linear_constraints P)).

(** The list [penalties] of the estimator. *)
Definition penalties (P : QuadraticProgram) : list Qc :=
  [1] ++ (Qcabs <$> dict_values (to_dict (obj_linear (objective P))))
      ++ (Qcabs <$> dict_values (to_dict (obj_quadratic (objective P)))).

Definition estimate (P : QuadraticProgram) : result Qc * list (string * Qc) :=
  if non_integral_terms P then (Ok default_penalty, [(warning_text, default_penalty)])
  else match fsum (penalties P) with
       | Some v => (Ok v, [])
       | None => (Raise overflow_error, [])
       end.

(** Some right-hand side of a linear constraint is a float that is not
    integral, or some coefficient of a linear constraint is a float that is
    not integral. *)
Definition has_non_integral_term (P : QuadraticProgram) : Prop :=
  ∃ c, c ∈ linear_constraints P
       ∧ ((∃ q, lc_rhs c = Float q ∧ is_integer q = false)
          ∨ (float_values (lc_linear c) = true
             ∧ ∃ j coef, to_dict (lc_linear c) !! j = Some coef ∧ is_integer coef = false)).

(** The sum of the absolute values of the entries of a dictionary. *)
Definition sum_abs `{Countable K} (d : gmap K Qc) : Qc :=
  map_fold (λ _ v s, Qcabs v + s) 0 d.

Definition with_penalty (p : option Qc) (c : Converter) : Converter :=
  mkConverter (_src c) (_dst c) p (_should_define_penalty c).

(** How the local [penalty] of [convert] is obtained from the fields and
    the source problem, and the warnings logged on the way. *)
Definition resolved (c : Converter) (P : QuadraticProgram)
    : result (option Qc) * list (string * Qc) :=
  if _should_define_penalty c then
    (match (estimate P).1 with Ok v => Ok (Some v) | Raise e => Raise e end, (estimate P).2)
  else (Ok (_penalty c), []).

(** The mode the setter establishes for the configured value [pen]. *)
Definition configured (pen : option Qc) (w : World) : Prop :=
  _should_define_penalty (self w) = bool_decide (pen = None)
  ∧ ∀ p, pen = Some p → _penalty (self w) = Some p.

(** The references [convert] creates: the copy and the destination. *)
Definition src_ref (w : World) : loc := fresh (dom (heap w)).

Definition dst_ref (w : World) (P : QuadraticProgram) : loc :=
  fresh (dom (<[src_ref w:=P]> (heap w))).

Section characterisation.
Context {matcher : Matcher}.

(** The template [convert] uses for a constraint: the first that matches. *)
Definition first_match (c : LinearConstraint) : option SpecialConstraint :=
  List.find (λ sc, is_special_constraint sc c) _special_constraints.

Definition printed (c : LinearConstraint) : list output :=
  match first_match c with
  | Some _ => [out_str "***Special!***"; out_dict (to_dict (lc_linear c))]
  | None => [out_str "+++ Not Special +++"; out_dict (to_dict (lc_linear c))]
  end.

(** The loop over the linear constraints: the outcome, the constraints
    passed on, and the console output. *)
Fixpoint linear_loop (sense : Qc) (penalty : option Qc) (cs : list LinearConstraint)
    (acc : Acc) : result Acc * list LinearConstraint * list output :=
  match cs with
  | [] => (Ok acc, [], [])
  | c :: cs =>
      match first_match c, penalty with
      | Some sc, Some p =>
          let '(r, kept, out) := linear_loop sense penalty cs (absorb sense p sc acc) in
          (r, kept, printed c ++ out)
      | Some sc, None =>
          (Raise (TypeError "unsupported operand type(s) for *: 'int' and 'NoneType'"),
           [], printed c)
      | None, _ =>
          let '(r, kept, out) := linear_loop sense penalty cs acc in
          (r, copy_lc c :: kept, printed c ++ out)
      end
  end.

(** What [convert_body] leaves in the destination [D0], its outcome and its
    console output. *)
Definition body_pure (penalty : option Qc) (P D0 : QuadraticProgram)
    : result unit * QuadraticProgram * list output :=
  match set_variables (variables P) D0 with
  | (Raise e, D1) => (Raise e, D1, [])
  | (Ok _, D1) =>
      let '(r, kept, out) :=
        linear_loop (ObjSense_value (obj_sense (objective P)))
          penalty (linear_constraints P) (initial_acc P) in
      match r with
      | Raise e => (Raise e, add_linear_constraints kept D1, out)
      | Ok (offset, linear, quadratic) =>
          (Ok tt,
           set_objective (obj_sense (objective P)) offset linear quadratic
             (add_quadratic_constraints (copy_qc <$> quadratic_constraints P)
                (add_linear_constraints kept D1)),
           out)
      end
  end.

Definition convert_pure (c : Converter) (P : QuadraticProgram)
    : result unit * QuadraticProgram * list output :=
  match (resolved c P).1 with
  | Ok penalty => body_pure penalty P (QuadraticProgram_new (qp_name P))
  | Raise e => (Raise e, QuadraticProgram_new (qp_name P), [])
  end.

(** The destination problem of a successful conversion whose accumulators
    end as [acc]. *)
Definition destination (P : QuadraticProgram) (acc : Acc) : QuadraticProgram :=
  mkQuadraticProgram (qp_name P) (dst_variable <$> variables P)
    (mkQuadraticObjective acc.1.1 (of_dict acc.1.2) (of_dict acc.2) (obj_sense (objective P)))
    (copy_lc <$> filter (λ c, first_match c = None) (linear_constraints P))
    (copy_qc <$> quadratic_constraints P).
End characterisation.

(** ** Example problems and worlds *)

Definition binaries3 : list Var :=
  [mkVariable "x0" 0 1 BINARY; mkVariable "x1" 0 1 BINARY; mkVariable "x2" 0 1 BINARY].

(** The coefficients of [x_i + x_j]. *)
Definition pair_sum (i j : nat) : gmap nat Qc := <[j:=1]> (<[i:=1]> ∅).

(** The constraint [x_i + x_j <= 1]. *)
Definition at_most_one_of (i j : nat) : LinearConstraint :=
  mkLinearConstraint "c0" (of_dict (pair_sum i j)) LE (NotFloat 1).

(** Three binary variables, the objective [x0 + x1] in the sense [s], and
    the constraint [x_i + x_j <= 1]. *)
Definition at_most_one (s : ObjSense) (i j : nat) : QuadraticProgram :=
  mkQuadraticProgram "at_most_one" binaries3
    (mkQuadraticObjective 0 (of_dict (pair_sum 0 1)) (of_dict ∅) s)
    [at_most_one_of i j] [].

(** A converter freshly built by [__init__ pen], and one live problem. *)
Definition start (P : QuadraticProgram) (pen : option Qc) : World :=
  (__init__ pen (mkWorld {[1%positive := P]} (mkConverter None None None true) [] [])).2.

(** A problem with a variable whose type is none of the three. *)
Definition semicontinuous : QuadraticProgram :=
  mkQuadraticProgram "semi"
    [mkVariable "x0" 0 1 BINARY; mkVariable "x1" 0 (Qc_of_Z 5) (OTHER "Type.SEMICONTINUOUS")]
    (mkQuadraticObjective 0 (of_dict ∅) (of_dict ∅) MINIMIZE) [] [].

(** A binary variable fixed to zero by its bounds, and an integer variable. *)
Definition fixed_binary : QuadraticProgram :=
  mkQuadraticProgram "fixed"
    [mkVariable "x0" 0 0 BINARY; mkVariable "x1" (- 1) (Qc_of_Z 5) INTEGER]
    (mkQuadraticObjective 0 (of_dict ∅) (of_dict ∅) MINIMIZE) [] [].

(** Three binary variables, the objective [x0 + x1], the constraint
    [x0 + x1 <= 1], the constraint [x0 + x2 = 1], which matches no template,
    and a quadratic constraint [x0 + x1*x2 <= 1]. *)
Definition mixed : QuadraticProgram :=
  mkQuadraticProgram "mixed" binaries3
    (mkQuadraticObjective 0 (of_dict (pair_sum 0 1)) (of_dict ∅) MINIMIZE)
    [at_most_one_of 0 1; mkLinearConstraint "c1" (of_dict (pair_sum 0 2)) EQ (NotFloat 1)]
    [mkQuadraticConstraint "q0" (of_dict {[0%nat := 1]})
       (of_dict {[(1%nat, 2%nat) := 1]}) LE 1].

(** A world in which [self._src] is the problem [P], as [convert] leaves it
    before it resolves the penalty. *)
Definition estimating (P : QuadraticProgram) : World :=
  mkWorld {[1%positive := P]} (mkConverter (Some 1%positive) None None true) [] [].

(** Two binary variables, the objective [2*x0 + 3*x0*x1] and the constraint
    [c*x0 + x1 <= rhs]. *)
Definition two_three (c : Qc) (rhs : number) : QuadraticProgram :=
  mkQuadraticProgram "two_three"
    [mkVariable "x0" 0 1 BINARY; mkVariable "x1" 0 1 BINARY]
    (mkQuadraticObjective 0 (of_dict {[0%nat := Qc_of_Z 2]})
       (of_dict {[(0%nat, 1%nat) := Qc_of_Z 3]}) MINIMIZE)
    [mkLinearConstraint "c0" (of_dict (<[1%nat:=1]> {[0%nat := c]})) LE rhs] [].

(** A variable of an unsupported type, and an objective whose
    coefficients are [2^1023] (about 9e307) on [x0] and on [x1]: their sum
    is beyond the range of binary64. *)
Definition huge : QuadraticProgram :=
  mkQuadraticProgram "huge"
    [mkVariable "x0" 0 1 BINARY; mkVariable "x1" 0 (Qc_of_Z 5) (OTHER "Type.SEMICONTINUOUS")]
    (mkQuadraticObjective 0
       (of_dict (<[1%nat:=Qc_of_Z (2 ^ 1023)]> {[0%nat := Qc_of_Z (2 ^ 1023)]}))
       (of_dict ∅) MINIMIZE) [] [].

(** ** Further notions used in Part II *)

(** The local [penalty] of [convert] is obtained without an error: the
    penalty is configured, or the estimator returns for the problem. *)
Definition penalty_resolves (w : World) (P : QuadraticProgram) : Prop :=
  _should_define_penalty (self w) = false
  ∨ ∃ v, (_auto_define_penalty (estimating P)).1 = Ok v.

(** The variables a failing loop over the variables has created: those
    before the first one of an unsupported type. *)
Fixpoint supported_prefix (xs : list Var) : list Var :=
  match xs with
  | [] => []
  | x :: xs => if supported x then x :: supported_prefix xs else []
  end.

(** The converter has a penalty to multiply with whenever it does not
    estimate one. *)
Definition has_penalty (w : World) : Prop :=
  _should_define_penalty (self w) = false → is_Some (_penalty (self w)).

Section uses.
Context {matcher : Matcher}.

(** A use of a converter through its methods: a [call], or a call of the
    setter of [penalty]. *)
Definition use (w w' : World) : Prop :=
  call w w' ∨ ∃ pen, w' = (penalty_setter pen w).2.

(** The test looks at a constraint through its name, coefficients, sense
    and right-hand side only. *)
Definition extensional : Prop :=
  ∀ sc c c', same_linear_constraint c c' →
    is_special_constraint sc c' = is_special_constraint sc c.

End uses.

(** The value of a penalty at an assignment of the variables: the constant,
    the linear terms [c * x_j] and the quadratic terms [c * x_i * x_j]. *)
Definition linear_value (d : gmap nat Qc) (x : nat → Qc) : Qc :=
  map_fold (λ j c s, c * x j + s) 0 d.

Definition quadratic_value (d : gmap (nat * nat) Qc) (x : nat → Qc) : Qc :=
  map_fold (λ ij c s, c * x ij.1 * x ij.2 + s) 0 d.

Definition penalty_value (sc : SpecialConstraint) (x : nat → Qc) : Qc :=
  penalty_constant sc
  + linear_value (to_dict (penalty_linear_expression sc)) x
  + quadratic_value (to_dict (penalty_quadratic_expression sc)) x.

(** The assignment satisfies the constraint of the template. *)
Definition satisfied (sc : SpecialConstraint) (x : nat → Qc) : bool :=
  let lhs := linear_value (to_dict (sc_linear sc)) x in
  match sc_sense sc with
  | LE => bool_decide (lhs ≤ sc_rhs sc)
  | GE => bool_decide (sc_rhs sc ≤ lhs)
  | EQ => bool_decide (lhs = sc_rhs sc)
  end.

(** An assignment of binary values to the three reference variables. *)
Definition binary_assignment (b0 b1 b2 : bool) : nat → Qc := λ j,
  match [b0; b1; b2] !! j with
  | Some true => 1
  | _ => 0
  end.

(** * Part II: lemmas and theorems *)

(** ** Running the monadic code *)

Lemma bind_run {A B} (m : M A) (f : A → M B) (w : World) :
  (m ≫= f) w = match m w with
               | (Ok a, w') => f a w'
               | (Raise e, w') => (Raise e, w')
               end.
Proof. reflexivity. Qed.

Lemma World_eta (w : World) : mkWorld (heap w) (self w) (log w) (stdout w) = w.
Proof. by destruct w. Qed.

Lemma self_src_run (attr : string) (w : World) (src : loc) (P : QuadraticProgram) :
  _src (self w) = Some src → heap w !! src = Some P →
  self_src attr w = (Ok P, w).
Proof.
  intros Hs Hp. unfold self_src. rewrite bind_run. simpl. rewrite Hs.
  unfold load. by rewrite Hp.
Qed.

Lemma self_src_None (attr : string) (w : World) :
  _src (self w) = None →
  self_src attr w
  = (Raise (AttributeError ("'NoneType' object has no attribute '" +:+ attr +:+ "'")), w).
Proof. intros Hs. unfold self_src. rewrite bind_run. simpl. by rewrite Hs. Qed.

Lemma auto_define_penalty_run (w : World) (src : loc) (P : QuadraticProgram) :
  _src (self w) = Some src → heap w !! src = Some P →
  _auto_define_penalty w
  = ((estimate P).1, mkWorld (heap w) (self w) (log w ++ (estimate P).2) (stdout w)).
Proof.
  intros Hs Hp. unfold _auto_define_penalty, estimate.
  rewrite bind_run, (self_src_run _ _ _ _ Hs Hp).
  fold (non_integral_terms P). destruct (non_integral_terms P).
  - reflexivity.
  - rewrite bind_run, (self_src_run _ _ _ _ Hs Hp). fold (penalties P).
    destruct (fsum (penalties P)); cbn [fst snd]; by rewrite app_nil_r, World_eta.
Qed.

Lemma add_linear_constraints_nil (D : QuadraticProgram) : add_linear_constraints [] D = D.
Proof. destruct D. unfold add_linear_constraints. simpl. by rewrite app_nil_r. Qed.

Lemma add_linear_constraints_cons (c : LinearConstraint) (cs : list LinearConstraint)
    (D : QuadraticProgram) :
  add_linear_constraints cs (add_linear_constraints [c] D) = add_linear_constraints (c :: cs) D.
Proof. unfold add_linear_constraints. simpl. by rewrite <- app_assoc. Qed.

Lemma add_quadratic_constraints_nil (D : QuadraticProgram) : add_quadratic_constraints [] D = D.
Proof. destruct D. unfold add_quadratic_constraints. simpl. by rewrite app_nil_r. Qed.

Lemma add_quadratic_constraints_cons (c : QuadraticConstraint) (cs : list QuadraticConstraint)
    (D : QuadraticProgram) :
  add_quadratic_constraints cs (add_quadratic_constraints [c] D)
  = add_quadratic_constraints (c :: cs) D.
Proof. unfold add_quadratic_constraints. simpl. by rewrite <- app_assoc. Qed.

Lemma add_row_run `{Countable K} (sense p : Qc) (row d : gmap K Qc) (w : World) :
  add_row sense (Some p) row d w = (Ok (add_row_pure sense p row d), w).
Proof.
  unfold add_row, add_row_pure. generalize (map_to_list row) as l.
  intros l. revert d. induction l as [|[j coef] l IH]; intros d; [done|].
  simpl. rewrite bind_run. simpl. apply IH.
Qed.

(** Steps of a monadic computation. *)
Ltac mstep :=
  repeat first [ rewrite bind_run; simpl | rewrite add_row_run; simpl ].

(** Closed equations are decided by evaluation. *)
Ltac by_evaluation := apply (bool_decide_unpack _); vm_compute; exact I.

Section running.
Context {matcher : Matcher}.

Lemma for_each_set_variable (dst : loc) (xs : list Var) (h : gmap loc QuadraticProgram)
    (D : QuadraticProgram) (c : Converter) lg out :
  for_each xs (set_variable dst) (mkWorld (<[dst:=D]> h) c lg out)
  = ((set_variables xs D).1, mkWorld (<[dst:=(set_variables xs D).2]> h) c lg out).
Proof.
  revert D. induction xs as [|x xs IH]; intros D; [done|].
  simpl. rewrite bind_run. unfold set_variable, dst_var, unsupported_error.
  destruct (vartype x); unfold update; simpl; rewrite ?alter_insert_eq;
    first [apply IH | done].
Qed.

Lemma for_fold_convert_linear_constraint (dst : loc) (sense : Qc) (penalty : option Qc)
    (cs : list LinearConstraint) (acc : Acc) (h : gmap loc QuadraticProgram)
    (D : QuadraticProgram) (c : Converter) lg out :
  let res := linear_loop sense penalty cs acc in
  for_fold cs (convert_linear_constraint dst sense penalty) acc
    (mkWorld (<[dst:=D]> h) c lg out)
  = (res.1.1, mkWorld (<[dst:=add_linear_constraints res.1.2 D]> h) c lg (out ++ res.2)).
Proof.
  revert acc D out. induction cs as [|k cs IH]; intros acc D out; simpl.
  { by rewrite add_linear_constraints_nil, app_nil_r. }
  rewrite bind_run. unfold convert_linear_constraint at 1, printed, first_match.
  destruct acc as [[offset linear] quadratic].
  destruct (List.find _ _) as [sc|] eqn:Hfind.
  - destruct penalty as [p|].
    + mstep.
      specialize (IH (absorb sense p sc (offset, linear, quadratic)) D
                     ((out ++ [out_str "***Special!***"])
                       ++ [out_dict (to_dict (lc_linear k))])).
      simpl in IH. rewrite IH.
      destruct (linear_loop _ _ _ _) as [[r kept] o]. simpl.
      by rewrite <- !app_assoc.
    + mstep. rewrite add_linear_constraints_nil.
      by rewrite <- !app_assoc.
  - mstep. rewrite alter_insert_eq.
    specialize (IH (offset, linear, quadratic)
                   (linear_constraint (to_dict (lc_linear k)) (lc_sense k) (lc_rhs k)
                      (lc_name k) D)
                   ((out ++ [out_str "+++ Not Special +++"])
                     ++ [out_dict (to_dict (lc_linear k))])).
    simpl in IH. rewrite IH.
    destruct (linear_loop _ _ _ _) as [[r kept] o]. simpl.
    rewrite <- !app_assoc. simpl.
    change (linear_constraint (to_dict (lc_linear k)) (lc_sense k) (lc_rhs k) (lc_name k) D)
      with (add_linear_constraints [copy_lc k] D).
    by rewrite add_linear_constraints_cons.
Qed.

Lemma for_each_copy_quadratic_constraint (dst : loc) (cs : list QuadraticConstraint)
    (h : gmap loc QuadraticProgram) (D : QuadraticProgram) (c : Converter) lg out :
  for_each cs (copy_quadratic_constraint dst) (mkWorld (<[dst:=D]> h) c lg out)
  = (Ok tt, mkWorld (<[dst:=add_quadratic_constraints (copy_qc <$> cs) D]> h) c lg out).
Proof.
  revert D. induction cs as [|k cs IH]; intros D; simpl.
  { by rewrite add_quadratic_constraints_nil. }
  rewrite bind_run. unfold copy_quadratic_constraint at 1, update. simpl.
  rewrite alter_insert_eq, IH.
  change (quadratic_constraint _ _ _ _ _ D) with (add_quadratic_constraints [copy_qc k] D).
  by rewrite add_quadratic_constraints_cons.
Qed.

(** ** [convert] as a function of the source problem *)

Lemma convert_body_run (penalty : option Qc) (src dst : loc) (P D0 : QuadraticProgram)
    (h : gmap loc QuadraticProgram) (c : Converter) lg out :
  src ≠ dst → _src c = Some src →
  let res := body_pure penalty P D0 in
  convert_body penalty dst (mkWorld (<[dst:=D0]> (<[src:=P]> h)) c lg out)
  = (match res.1.1 with Ok _ => Ok dst | Raise e => Raise e end,
     mkWorld (<[dst:=res.1.2]> (<[src:=P]> h))
       (match res.1.1 with Ok _ => with_penalty penalty c | Raise _ => c end)
       lg (out ++ res.2)).
Proof.
  intros Hne Hsrc res. subst res. unfold convert_body, body_pure.
  assert (Hread : ∀ attr D lg' out',
    self_src attr (mkWorld (<[dst:=D]> (<[src:=P]> h)) c lg' out')
    = (Ok P, mkWorld (<[dst:=D]> (<[src:=P]> h)) c lg' out')).
  { intros. apply (self_src_run _ _ src); [done|]. simpl.
    rewrite lookup_insert_ne by done. apply lookup_insert_eq. }
  rewrite bind_run, Hread, bind_run, for_each_set_variable.
  destruct (set_variables (variables P) D0) as [[[]|e] D1]; simpl;
    [|by rewrite app_nil_r].
  rewrite bind_run, Hread, bind_run, Hread, bind_run.
  rewrite for_fold_convert_linear_constraint. unfold initial_acc.
  destruct (linear_loop _ _ _ _) as [[[[[offset linear] quadratic]|e] kept] o];
    simpl; [|done].
  rewrite bind_run, Hread, bind_run, for_each_copy_quadratic_constraint.
  rewrite bind_run, Hread.
  destruct (obj_sense (objective P)); mstep; unfold update; simpl;
    by rewrite alter_insert_eq.
Qed.

Lemma resolve_penalty_run (w : World) (src : loc) (P : QuadraticProgram) :
  _src (self w) = Some src → heap w !! src = Some P →
  resolve_penalty w
  = ((resolved (self w) P).1,
     mkWorld (heap w) (self w) (log w ++ (resolved (self w) P).2) (stdout w)).
Proof.
  intros Hs Hp. unfold resolve_penalty, resolved. rewrite bind_run. cbn [get_self].
  destruct (_should_define_penalty (self w)).
  - rewrite bind_run, (auto_define_penalty_run _ _ _ Hs Hp). cbn [fst snd].
    by destruct (estimate P).1.
  - cbn [fst snd]. by rewrite app_nil_r, World_eta.
Qed.

Lemma src_ref_fresh (w : World) : heap w !! src_ref w = None.
Proof. apply not_elem_of_dom. apply (is_fresh (dom (heap w))). Qed.

Lemma dst_ref_fresh (w : World) (P : QuadraticProgram) :
  (<[src_ref w:=P]> (heap w)) !! dst_ref w P = None.
Proof. apply not_elem_of_dom. apply (is_fresh (dom (<[src_ref w:=P]> (heap w)))). Qed.

Lemma src_dst_ne (w : World) (P : QuadraticProgram) : src_ref w ≠ dst_ref w P.
Proof.
  intros Heq. pose proof (dst_ref_fresh w P) as Hf.
  rewrite <- Heq, lookup_insert_eq in Hf. done.
Qed.

(** The whole of [convert] on a live problem object. *)
Lemma convert_run (problem : loc) (w : World) (P : QuadraticProgram) :
  heap w !! problem = Some P →
  let c1 := mkConverter (Some (src_ref w)) (Some (dst_ref w P)) (_penalty (self w))
              (_should_define_penalty (self w)) in
  let res := convert_pure (self w) P in
  convert problem w
  = (match res.1.1 with Ok _ => Ok (dst_ref w P) | Raise e => Raise e end,
     mkWorld (<[dst_ref w P:=res.1.2]> (<[src_ref w:=P]> (heap w)))
       (match res.1.1, (resolved (self w) P).1 with
        | Ok _, Ok penalty => with_penalty penalty c1
        | _, _ => c1
        end)
       (log w ++ (resolved (self w) P).2) (stdout w ++ res.2)).
Proof.
  intros Hp c1 res. unfold convert, convert_from.
  rewrite bind_run. unfold load at 1. rewrite Hp.
  rewrite bind_run. unfold alloc at 1. fold (src_ref w).
  rewrite bind_run. unfold set_src at 1. rewrite bind_run. cbn [get_self set_self self heap log stdout].
  rewrite bind_run. unfold alloc at 1. cbn [heap self log stdout]. fold (dst_ref w P).
  rewrite bind_run. unfold set_dst at 1. rewrite bind_run. cbn [get_self set_self self heap log stdout].
  cbn [_src _dst _penalty _should_define_penalty]. fold c1.
  rewrite bind_run.
  rewrite (resolve_penalty_run _ (src_ref w) P); cbn [self heap log stdout]; [|done|].
  2:{ rewrite lookup_insert_ne by (apply not_eq_sym, src_dst_ne). apply lookup_insert_eq. }
  assert (Hres : resolved c1 P = resolved (self w) P) by done.
  rewrite Hres. subst res. unfold convert_pure.
  destruct (resolved (self w) P).1 as [penalty|e].
  - rewrite (convert_body_run _ (src_ref w) (dst_ref w P)); [|apply src_dst_ne|done].
    cbn [self heap log stdout].
    by destruct (body_pure _ _ _).1.1.
  - cbn [fst snd]. by rewrite app_nil_r.
Qed.

(** A dangling argument: nothing happens but the failure. *)
Lemma convert_dangling (problem : loc) (w : World) :
  heap w !! problem = None →
  convert problem w = (Raise (SystemError "dangling reference"), w).
Proof.
  intros Hp. unfold convert, convert_from.
  rewrite bind_run. unfold load. by rewrite Hp.
Qed.
End running.

(** ** Facts about the loops *)

Lemma dst_var_supported (x : Var) : supported x = true → dst_var x = Some (dst_variable x).
Proof. unfold supported, dst_variable, dst_var. by destruct (vartype x). Qed.

Lemma dst_var_unsupported (x : Var) : supported x = false → dst_var x = None.
Proof. unfold supported, dst_var. by destruct (vartype x). Qed.

Lemma set_variables_supported (xs : list Var) (D : QuadraticProgram) :
  forallb supported xs = true →
  set_variables xs D
  = (Ok tt, mkQuadraticProgram (qp_name D) (variables D ++ (dst_variable <$> xs))
              (objective D) (linear_constraints D) (quadratic_constraints D)).
Proof.
  revert D. induction xs as [|x xs IH]; intros D Hall; simpl.
  { rewrite app_nil_r. by destruct D. }
  simpl in Hall. apply andb_prop in Hall as [Hx Hxs].
  rewrite (dst_var_supported _ Hx), (IH _ Hxs). simpl.
  by rewrite <- app_assoc.
Qed.

Lemma set_variables_unsupported (xs : list Var) (D : QuadraticProgram) :
  forallb supported xs = false →
  ∃ x, x ∈ xs ∧ supported x = false ∧ (set_variables xs D).1 = Raise (unsupported_error x).
Proof.
  revert D. induction xs as [|x xs IH]; intros D Hall; simpl in *; [done|].
  destruct (supported x) eqn:Hx.
  - rewrite (dst_var_supported _ Hx). simpl in Hall.
    destruct (IH (add_variable (dst_variable x) D) Hall) as (y & Hy & Hsy & Hr).
    exists y. split_and!; [by right|done|done].
  - rewrite (dst_var_unsupported _ Hx). exists x. split_and!; [by left|done|done].
Qed.

Lemma forallb_supported_false (xs : list Var) :
  forallb supported xs = false ↔ ∃ x, x ∈ xs ∧ supported x = false.
Proof.
  split.
  - intros Hall. destruct (set_variables_unsupported xs (QuadraticProgram_new "") Hall)
      as (x & ? & ? & _). eauto.
  - intros (x & Hx & Hs). destruct (forallb supported xs) eqn:Hall; [|done].
    rewrite forallb_forall in Hall. rewrite <- Hs. symmetry. apply Hall.
    by apply list_elem_of_In.
Qed.

Lemma supported_false_iff (x : Var) :
  supported x = false ↔ vartype x ∉ [CONTINUOUS; BINARY; INTEGER].
Proof.
  unfold supported. rewrite !not_elem_of_cons.
  destruct (vartype x); split; try done; try (by intros (? & ? & ? & _)).
  intros _. split_and!; try done. apply not_elem_of_nil.
Qed.

Section rows.
Context `{Countable K}.

Lemma add_row_pure_lookup (sense p : Qc) (row d : gmap K Qc) (j : K) :
  add_row_pure sense p row d !! j
  = match row !! j with
    | Some coef => Some (default 0 (d !! j) + sense * p * coef)
    | None => d !! j
    end.
Proof.
  unfold add_row_pure.
  rewrite <- (list_to_map_to_list row) at 2.
  pose proof (NoDup_fst_map_to_list row) as Hnd.
  revert d. induction (map_to_list row) as [|[k c] l IH]; intros d.
  - simpl. by rewrite lookup_empty.
  - simpl in *. pose proof (NoDup_cons_1_1 _ _ Hnd) as Hk.
    apply NoDup_cons_1_2 in Hnd. rewrite (IH Hnd). unfold dict_add.
    destruct (decide (k = j)) as [->|Hne].
    + rewrite (not_elem_of_list_to_map_1 _ _ Hk). by rewrite !lookup_insert_eq.
    + by rewrite !lookup_insert_ne.
Qed.

Lemma add_row_pure_empty (sense p : Qc) (d : gmap K Qc) : add_row_pure sense p ∅ d = d.
Proof. unfold add_row_pure. by rewrite map_to_list_empty. Qed.

Lemma add_row_pure_singleton (sense p : Qc) (k : K) (coef : Qc) (d : gmap K Qc) :
  add_row_pure sense p {[k := coef]} d = dict_add (sense * p * coef) k d.
Proof. unfold add_row_pure. by rewrite map_to_list_singleton. Qed.

(** Reading back what was stored: the nonzero entries. *)
Lemma to_dict_of_dict (d : gmap K Qc) : to_dict (of_dict d) = filter (λ kv, kv.2 ≠ 0) d.
Proof. done. Qed.

Lemma to_dict_idemp (e : Expression K) : to_dict (of_dict (to_dict e)) = to_dict e.
Proof.
  unfold to_dict, of_dict. simpl. apply map_eq. intros i. apply option_eq. intros x.
  rewrite !map_lookup_filter_Some. simpl. tauto.
Qed.

(** Dropping zero entries does not change a coefficient. *)
Lemma coefficient_to_dict_of_dict (d : gmap K Qc) (k : K) :
  coefficient (to_dict (of_dict d)) k = coefficient d k.
Proof.
  unfold coefficient. rewrite to_dict_of_dict.
  destruct (d !! k) as [v|] eqn:Hd.
  - destruct (decide (v = 0)) as [->|Hv].
    + rewrite (proj2 (map_lookup_filter_None _ _ _)); [done|].
      right. intros x Hx. rewrite Hd in Hx. injection Hx as <-. simpl. tauto.
    + by rewrite (map_lookup_filter_Some_2 _ _ _ _ Hd).
  - rewrite (proj2 (map_lookup_filter_None _ _ _)); [done|]. by left.
Qed.

Lemma sum_abs_values (d : gmap K Qc) : exact_sum (Qcabs <$> dict_values d) = sum_abs d.
Proof.
  unfold sum_abs, dict_values. rewrite map_fold_foldr.
  unfold exact_sum. induction (map_to_list d) as [|[k v] l IH]; [done|].
  simpl. f_equal. exact IH.
Qed.
End rows.

Lemma exact_sum_app (xs ys : list Qc) : exact_sum (xs ++ ys) = exact_sum xs + exact_sum ys.
Proof.
  induction xs as [|x xs IH]; simpl.
  - by rewrite Qcplus_0_l.
  - rewrite IH. apply Qcplus_assoc.
Qed.

(** The sum the estimator asks [math.fsum] for. *)
Lemma exact_sum_penalties (P : QuadraticProgram) :
  exact_sum (penalties P)
  = 1 + sum_abs (to_dict (obj_linear (objective P)))
      + sum_abs (to_dict (obj_quadratic (objective P))).
Proof.
  unfold penalties. rewrite !exact_sum_app, !sum_abs_values. simpl.
  rewrite Qcplus_0_r. apply Qcplus_assoc.
Qed.

(** Rounding leaves the integers below [2^53] as they are. *)
Lemma round_double_integer (z : Z) :
  (0 ≤ z < 2 ^ 53)%Z → round_double (Qc_of_Z z) = Some (Qc_of_Z z).
Proof.
  intros [Hz0 Hz]. unfold round_double.
  assert (Hq : this (Qc_of_Z z) = inject_Z z).
  { done. }
  rewrite Hq. cbn [Qnum Qden inject_Z].
  rewrite (Z.abs_eq z Hz0).
  destruct (decide (z = 0)%Z) as [->|Hne]; [f_equal; by apply Qc_is_canon|].
  assert (Hpos : (0 < z)%Z) by lia.
  pose proof (Z.log2_spec z Hpos) as [Hlo Hhi].
  pose proof (Z.log2_nonneg z) as He0.
  assert (He : (Z.log2 z < 53)%Z) by (apply Z.log2_lt_pow2; lia).
  change (Z.log2 1) with 0%Z. rewrite Z.sub_0_r.
  assert (Hs : scaled_by (Z.log2 z) z 1 = (z, 1 * 2 ^ Z.log2 z)%Z).
  { unfold scaled_by. by rewrite decide_True. }
  rewrite Hs. cbn [fst snd].
  destruct (decide (1 * 2 ^ Z.log2 z ≤ z)%Z) as [_|Hn]; [|lia].
  set (j := (52 - Z.log2 z)%Z).
  assert (Hj : (0 ≤ j)%Z) by lia.
  assert (Hk : Z.max (Z.log2 z - 52) (- 1074) = (- j)%Z) by lia.
  rewrite Hk.
  assert (H2j : (0 < 2 ^ j)%Z) by (apply Z.pow_pos_nonneg; lia).
  assert (Hm : round_half_even (scaled_by (- j) z 1).1 (scaled_by (- j) z 1).2
               = (z * 2 ^ j)%Z).
  { unfold scaled_by. destruct (decide (0 ≤ - j)%Z) as [Hj0|Hj0]; cbn [fst snd].
    - assert (j = 0%Z) as -> by lia. change (- 0)%Z with 0%Z.
      change (1 * 2 ^ 0)%Z with 1%Z. unfold round_half_even.
      rewrite Z.div_1_r, Z.mod_1_r. rewrite decide_True by lia. lia.
    - rewrite Z.opp_involutive. unfold round_half_even.
      rewrite Z.div_1_r, Z.mod_1_r. by rewrite decide_True by lia. }
  rewrite Hm.
  assert (Hsgn : Z.sgn z = 1%Z) by (apply Z.sgn_pos; lia).
  rewrite Hsgn, Z.mul_1_l.
  destruct (decide (j = 0)%Z) as [->|Hj0].
  - change (- 0)%Z with 0%Z. change (2 ^ 0)%Z with 1%Z. rewrite !Z.mul_1_r.
    rewrite decide_False.
    2:{ assert (2 ^ 53 < 2 ^ 1024)%Z by (apply Z.pow_lt_mono_r; lia). lia. }
    unfold times_pow2. rewrite decide_True by lia.
    change (2 ^ 0)%Z with 1%Z. by rewrite Z.mul_1_r.
  - assert (Hp0 : (2 ^ (- j) = 0)%Z) by (apply Z.pow_neg_r; lia).
    rewrite Hp0, Z.mul_0_r. rewrite decide_False.
    2:{ assert (0 < 2 ^ 1024)%Z by (apply Z.pow_pos_nonneg; lia). lia. }
    f_equal. unfold times_pow2. rewrite decide_False by lia.
    rewrite Z.opp_involutive. apply Qc_is_canon. simpl.
    rewrite !Qred_correct. unfold Qeq. simpl.
    rewrite Z2Pos.id by done. lia.
Qed.

Lemma non_integral_terms_true (P : QuadraticProgram) :
  non_integral_terms P = true ↔ has_non_integral_term P.
Proof.
  unfold non_integral_terms, has_non_integral_term. rewrite existsb_exists. split.
  - intros (t & Hin & Ht). apply andb_prop in Ht as [Hf Ht]. apply negb_true_iff in Ht.
    apply in_flat_map in Hin as (c & Hc & Hin). exists c.
    split; [by apply list_elem_of_In|].
    destruct Hin as [<-|Hin].
    + left. destruct (lc_rhs c) as [q|q]; [eauto|done].
    + right. unfold to_dict_values in Hin.
      apply list_elem_of_In, list_elem_of_fmap in Hin as (coef & -> & Hin).
      apply list_elem_of_fmap in Hin as ([j coef'] & -> & Hin).
      apply elem_of_map_to_list in Hin.
      destruct (float_values (lc_linear c)); [eauto|done].
  - intros (c & Hc & Hor).
    assert (∃ t, In t (lc_rhs c :: to_dict_values (lc_linear c))
                 ∧ isinstance_float t = true ∧ is_integer (value t) = false)
      as (t & Hin & Hf & Ht).
    { destruct Hor as [(q & Hq & Hr)|(Hfl & j & coef & Hj & Hcoef)].
      - exists (lc_rhs c). split; [by left|]. by rewrite Hq.
      - exists (Float coef). split; [|done]. right. unfold to_dict_values. rewrite Hfl.
        apply list_elem_of_In, list_elem_of_fmap. exists coef. split; [done|].
        apply list_elem_of_fmap. exists (j, coef). split; [done|].
        by apply elem_of_map_to_list. }
    exists t. split; [|by rewrite Hf, Ht].
    apply in_flat_map. exists c. split; [by apply list_elem_of_In|done].
Qed.

(** The penalty decompositions of the two templates, over the reference
    variables 0 and 1. *)
Lemma pattern_A_penalty :
  penalty_constant pattern_A = 1
  ∧ to_dict (penalty_linear_expression pattern_A) = ∅
  ∧ to_dict (penalty_quadratic_expression pattern_A) = {[(0%nat, 1%nat) := 1]}.
Proof. split_and!; by_evaluation. Qed.

Lemma pattern_B_penalty :
  penalty_constant pattern_B = 1
  ∧ to_dict (penalty_linear_expression pattern_B) = <[1%nat:=- 1]> {[0%nat := - 1]}
  ∧ to_dict (penalty_quadratic_expression pattern_B) = {[(0%nat, 1%nat) := 1]}.
Proof. split_and!; by_evaluation. Qed.

Lemma copy_lc_same (c : LinearConstraint) : same_linear_constraint c (copy_lc c).
Proof. unfold same_linear_constraint, copy_lc. simpl. by rewrite to_dict_idemp. Qed.

Lemma copy_qc_same (c : QuadraticConstraint) : same_quadratic_constraint c (copy_qc c).
Proof. unfold same_quadratic_constraint, copy_qc. simpl. by rewrite !to_dict_idemp. Qed.

Lemma Forall2_fmap_same {A} (R : A → A → Prop) (f : A → A) (l : list A) :
  (∀ x, R x (f x)) → Forall2 R l (f <$> l).
Proof. intros HR. induction l; constructor; auto. Qed.

Section loop_facts.
Context {matcher : Matcher}.

(** With a penalty value the loop over the constraints does not raise. *)
Lemma linear_loop_Some (sense p : Qc) (cs : list LinearConstraint) (acc : Acc) :
  linear_loop sense (Some p) cs acc
  = (Ok (foldl (λ acc sc, absorb sense p sc acc) acc (omap first_match cs)),
     copy_lc <$> filter (λ c, first_match c = None) cs,
     concat (printed <$> cs)).
Proof.
  revert acc. induction cs as [|c cs IH]; intros acc; [done|].
  simpl. destruct (first_match c) as [sc|] eqn:Hm.
  - rewrite IH. rewrite filter_cons_False by (rewrite Hm; done). done.
  - rewrite IH. rewrite filter_cons_True by done. done.
Qed.

(** What a successful run of the loop has done. *)
Lemma linear_loop_Ok (sense : Qc) (penalty : option Qc) (cs : list LinearConstraint)
    (acc acc' : Acc) kept out :
  linear_loop sense penalty cs acc = (Ok acc', kept, out) →
  kept = copy_lc <$> filter (λ c, first_match c = None) cs
  ∧ out = concat (printed <$> cs)
  ∧ (∀ p, penalty = Some p →
       acc' = foldl (λ acc sc, absorb sense p sc acc) acc (omap first_match cs))
  ∧ (penalty = None → acc' = acc ∧ omap first_match cs = []).
Proof.
  destruct penalty as [p|].
  - rewrite linear_loop_Some. intros [= <- <- <-].
    split_and!; [done|done| |done]. by intros ? [= <-].
  - revert acc acc' kept out. induction cs as [|c cs IH]; intros acc acc' kept out; simpl.
    { intros [= <- <- <-]. by split_and!. }
    destruct (first_match c) as [sc|] eqn:Hm; [done|].
    destruct (linear_loop sense None cs acc) as [[r k] o] eqn:Hl.
    intros [= -> <- <-].
    destruct (IH _ _ _ _ Hl) as (-> & -> & _ & HN).
    destruct (HN eq_refl) as [-> Hom].
    rewrite filter_cons_True by done. by split_and!.
Qed.

(** The loop over the constraints raises nothing but the [TypeError] of a
    missing penalty. *)
Lemma linear_loop_Raise (sense : Qc) (penalty : option Qc) (cs : list LinearConstraint)
    (acc : Acc) (e : exn) :
  (linear_loop sense penalty cs acc).1.1 = Raise e →
  e = TypeError "unsupported operand type(s) for *: 'int' and 'NoneType'".
Proof.
  revert acc. induction cs as [|c cs IH]; intros acc; simpl; [done|].
  destruct (first_match c) as [sc|], penalty as [p|]; simpl.
  - specialize (IH (absorb sense p sc acc)).
    destruct (linear_loop _ _ _ _) as [[r k] o]. exact IH.
  - by intros [= <-].
  - specialize (IH acc). destruct (linear_loop _ _ _ _) as [[r k] o]. exact IH.
  - specialize (IH acc). destruct (linear_loop _ _ _ _) as [[r k] o]. exact IH.
Qed.

Lemma omap_first_match_matched (cs : list LinearConstraint) :
  omap first_match (filter (λ c, first_match c ≠ None) cs) = omap first_match cs.
Proof.
  induction cs as [|c cs IH]; [done|].
  destruct (first_match c) as [sc|] eqn:Hm.
  - rewrite filter_cons_True by (rewrite Hm; done). cbn [omap list_omap].
    by rewrite Hm, <- IH.
  - rewrite filter_cons_False by (rewrite Hm; intros Hn; by apply Hn).
    cbn [omap list_omap]. by rewrite Hm, <- IH.
Qed.

Lemma omap_first_match_none (cs : list LinearConstraint) :
  Forall (λ c, first_match c = None) cs → omap first_match cs = [].
Proof.
  induction 1 as [|c cs Hc _ IH]; [done|]. cbn [omap list_omap]. by rewrite Hc.
Qed.
End loop_facts.

(** ** Outcomes of [convert] *)

Section outcomes.
Context {matcher : Matcher}.

(** The estimator run on the stored copy of [P]. *)
Lemma estimating_run (P : QuadraticProgram) :
  (_auto_define_penalty (estimating P)).1 = (estimate P).1.
Proof. by rewrite (auto_define_penalty_run (estimating P) 1%positive P eq_refl eq_refl). Qed.

Lemma resolved_configured (c : Converter) (P : QuadraticProgram) :
  _should_define_penalty c = false → resolved c P = (Ok (_penalty c), []).
Proof. intros Hs. unfold resolved. by rewrite Hs. Qed.

Lemma penalty_resolves_resolved (w : World) (P : QuadraticProgram) :
  penalty_resolves w P ↔ ∃ penalty, (resolved (self w) P).1 = Ok penalty.
Proof.
  unfold penalty_resolves, resolved. rewrite estimating_run.
  destruct (_should_define_penalty (self w)); cbn [fst].
  - split.
    + intros [?|[v Hv]]; [done|]. rewrite Hv. eauto.
    + intros [penalty Hp]. right. destruct (estimate P).1; [eauto|done].
  - split; [eauto|]. intros _. by left.
Qed.

(** When the penalty is not obtained, the estimator's error is the outcome,
    and no variable was looked at. *)
Lemma convert_unresolved (problem : loc) (w : World) (P : QuadraticProgram) (e : exn) :
  heap w !! problem = Some P →
  (resolved (self w) P).1 = Raise e →
  convert problem w
  = (Raise e,
     mkWorld (<[dst_ref w P:=QuadraticProgram_new (qp_name P)]> (<[src_ref w:=P]> (heap w)))
       (mkConverter (Some (src_ref w)) (Some (dst_ref w P)) (_penalty (self w))
          (_should_define_penalty (self w)))
       (log w ++ (resolved (self w) P).2) (stdout w)).
Proof.
  intros Hp Hres. rewrite (convert_run _ _ _ Hp). unfold convert_pure.
  rewrite Hres. cbn [fst snd]. by rewrite app_nil_r.
Qed.

(** The only error of the resolution is the estimator's overflow. *)
Lemma resolved_Raise (c : Converter) (P : QuadraticProgram) (e : exn) :
  (resolved c P).1 = Raise e →
  e = overflow_error ∧ _should_define_penalty c = true ∧ (resolved c P).2 = []
  ∧ (_auto_define_penalty (estimating P)).1 = Raise e.
Proof.
  rewrite estimating_run. unfold resolved, estimate.
  destruct (_should_define_penalty c); [|done].
  destruct (non_integral_terms P); [done|].
  destruct (fsum (penalties P)); [done|]. cbn [fst snd]. by intros [= <-].
Qed.

(** In the estimating mode the penalty obtained is the estimate. *)
Lemma resolved_estimating (c : Converter) (P : QuadraticProgram) (penalty : option Qc) :
  _should_define_penalty c = true →
  (resolved c P).1 = Ok penalty →
  ∃ v, (_auto_define_penalty (estimating P)).1 = Ok v ∧ penalty = Some v.
Proof.
  intros Hs. rewrite estimating_run. unfold resolved. rewrite Hs. cbn [fst].
  destruct (estimate P).1 as [v|e]; [|done]. intros [= <-]. eauto.
Qed.

(** A variable of an unsupported type stops the conversion. *)
Lemma convert_unsupported (problem : loc) (w : World) (P : QuadraticProgram)
    (penalty : option Qc) :
  heap w !! problem = Some P →
  (resolved (self w) P).1 = Ok penalty →
  forallb supported (variables P) = false →
  ∃ x, x ∈ variables P ∧ supported x = false
       ∧ (convert problem w).1 = Raise (unsupported_error x).
Proof.
  intros Hp Hres Hall. rewrite (convert_run _ _ _ Hp). cbn [fst].
  unfold convert_pure, body_pure. rewrite Hres.
  destruct (set_variables_unsupported (variables P) (QuadraticProgram_new (qp_name P)) Hall)
    as (x & Hx & Hs & Hr).
  exists x. split_and!; [done..|].
  destruct (set_variables _ _) as [r D1]. simpl in Hr. subst r. done.
Qed.

(** With supported variables, the outcome is that of the loop over the
    linear constraints. *)
Lemma convert_supported (problem : loc) (w : World) (P : QuadraticProgram)
    (penalty : option Qc) :
  heap w !! problem = Some P →
  (resolved (self w) P).1 = Ok penalty →
  forallb supported (variables P) = true →
  let res := linear_loop (ObjSense_value (obj_sense (objective P)))
               penalty (linear_constraints P) (initial_acc P) in
  let c1 := mkConverter (Some (src_ref w)) (Some (dst_ref w P)) (_penalty (self w))
              (_should_define_penalty (self w)) in
  convert problem w
  = match res.1.1 with
    | Ok acc =>
        (Ok (dst_ref w P),
         mkWorld (<[dst_ref w P:=destination P acc]> (<[src_ref w:=P]> (heap w)))
           (with_penalty penalty c1)
           (log w ++ (resolved (self w) P).2) (stdout w ++ res.2))
    | Raise e =>
        (Raise e,
         mkWorld (<[dst_ref w P:=
                     mkQuadraticProgram (qp_name P) (dst_variable <$> variables P)
                       (objective (QuadraticProgram_new (qp_name P))) res.1.2 []]>
                    (<[src_ref w:=P]> (heap w)))
           c1 (log w ++ (resolved (self w) P).2) (stdout w ++ res.2))
    end.
Proof.
  intros Hp Hresolved Hall res c1. rewrite (convert_run _ _ _ Hp). fold c1.
  unfold convert_pure, body_pure. rewrite Hresolved.
  rewrite (set_variables_supported _ _ Hall).
  fold res. destruct res as [[[[[offset linear] quadratic]|e] kept] out] eqn:Hres; simpl.
  - f_equal. f_equal. f_equal. unfold destination, set_objective. simpl.
    subst res. by destruct (linear_loop_Ok _ _ _ _ _ _ _ Hres) as (-> & _).
  - done.
Qed.

(** Success, inverted. *)
Lemma convert_Ok (problem : loc) (w : World) (P : QuadraticProgram) (dst : loc) :
  heap w !! problem = Some P →
  (convert problem w).1 = Ok dst →
  dst = dst_ref w P
  ∧ forallb supported (variables P) = true
  ∧ ∃ penalty acc,
      (resolved (self w) P).1 = Ok penalty
      ∧ heap (convert problem w).2 !! dst = Some (destination P acc)
      ∧ _penalty (self (convert problem w).2) = penalty
      ∧ (∀ p, penalty = Some p →
           acc = foldl (λ acc sc, absorb (ObjSense_value (obj_sense (objective P))) p sc acc)
                   (initial_acc P) (omap first_match (linear_constraints P)))
      ∧ (penalty = None →
           acc = initial_acc P ∧ omap first_match (linear_constraints P) = []).
Proof.
  intros Hp. destruct (resolved (self w) P).1 as [penalty|e] eqn:Hresolved.
  2:{ by rewrite (convert_unresolved _ _ _ _ Hp Hresolved). }
  destruct (forallb supported (variables P)) eqn:Hall.
  - rewrite (convert_supported _ _ _ _ Hp Hresolved Hall).
    destruct (linear_loop _ _ _ _) as [[[acc|e] kept] out] eqn:Hres; simpl; [|done].
    intros [= <-]. split_and!; [done..|]. exists penalty, acc.
    rewrite lookup_insert_eq.
    destruct (linear_loop_Ok _ _ _ _ _ _ _ Hres) as (_ & _ & HS & HN).
    by split_and!.
  - destruct (convert_unsupported _ _ _ _ Hp Hresolved Hall) as (x & _ & _ & Hr).
    by rewrite Hr.
Qed.

(** After [convert], whatever its outcome, [self._src] is the copy taken of
    the argument. *)
Lemma convert_src (problem : loc) (w : World) (P : QuadraticProgram) :
  heap w !! problem = Some P →
  _src (self (convert problem w).2) = Some (src_ref w)
  ∧ heap (convert problem w).2 !! src_ref w = Some P.
Proof.
  intros Hp. rewrite (convert_run _ _ _ Hp). cbn [fst snd self heap]. split.
  - destruct (resolved _ _).1; by destruct (convert_pure _ _).1.1.
  - rewrite lookup_insert_ne by (apply not_eq_sym, src_dst_ne). apply lookup_insert_eq.
Qed.

(** The store after [convert]: the store before, the copy and the
    destination. *)
Lemma convert_heap (problem : loc) (w : World) (P : QuadraticProgram) :
  heap w !! problem = Some P →
  ∃ D, heap (convert problem w).2 = <[dst_ref w P:=D]> (<[src_ref w:=P]> (heap w)).
Proof. intros Hp. rewrite (convert_run _ _ _ Hp). cbn [snd heap]. eauto. Qed.

Lemma convert_should_define_penalty (problem : loc) (w : World) :
  _should_define_penalty (self (convert problem w).2) = _should_define_penalty (self w).
Proof.
  destruct (heap w !! problem) as [P|] eqn:Hp.
  - rewrite (convert_run _ _ _ Hp). cbn [fst snd self].
    destruct (resolved _ _).1; by destruct (convert_pure _ _).1.1.
  - by rewrite convert_dangling.
Qed.

(** ** The penalty mode across calls *)

Lemma penalty_setter_configured (pen : option Qc) (w : World) :
  configured pen (penalty_setter pen w).2.
Proof. split; [done|]. by intros p ->. Qed.

Lemma init_configured (pen : option Qc) (w : World) :
  configured pen (__init__ pen w).2.
Proof. split; [done|]. by intros p ->. Qed.

Lemma convert_configured (pen : option Qc) (problem : loc) (w : World) :
  configured pen w → configured pen (convert problem w).2.
Proof.
  intros [Hs Hp]. split.
  - by rewrite convert_should_define_penalty.
  - intros p ->. specialize (Hp p eq_refl).
    rewrite bool_decide_eq_false_2 in Hs by done.
    destruct (heap w !! problem) as [P|] eqn:Hl.
    + rewrite (convert_run _ _ _ Hl). cbn [fst snd self].
      rewrite (resolved_configured _ _ Hs). cbn [fst].
      by destruct (convert_pure _ _).1.1.
    + by rewrite convert_dangling.
Qed.

Lemma call_configured (pen : option Qc) (w w' : World) :
  configured pen w → call w w' → configured pen w'.
Proof.
  intros Hc [[problem ->]|Hself].
  - by apply convert_configured.
  - unfold configured. by rewrite Hself.
Qed.

Lemma calls_configured (pen : option Qc) (w w' : World) :
  configured pen w → rtc call w w' → configured pen w'.
Proof. intros Hc Hr. induction Hr; eauto using call_configured. Qed.

(** [convert_from] looks at [resolve] in one world only, in which the mode
    and the recorded penalty are those of the call. *)
Lemma convert_from_ext (resolve1 resolve2 : M (option Qc)) (problem : loc) (w : World) :
  (∀ w2, _should_define_penalty (self w2) = _should_define_penalty (self w) →
         _penalty (self w2) = _penalty (self w) →
         resolve1 w2 = resolve2 w2) →
  convert_from resolve1 problem w = convert_from resolve2 problem w.
Proof.
  intros Hext. unfold convert_from.
  rewrite !(bind_run (load problem)). unfold load.
  destruct (heap w !! problem) as [P|]; [|done].
  unfold alloc, set_src, set_dst, get_self, set_self.
  repeat (rewrite bind_run; cbn [heap self log stdout _src _dst _penalty
                                 _should_define_penalty]).
  by rewrite Hext.
Qed.
End outcomes.

(** ** The theorems *)

Section theorems.
Context {matcher : Matcher}.

(** C9, as amended: when the penalty is obtained without an error (it is
    configured, or the estimator returns), [convert] raises the
    unsupported-variable-type error ([QiskitOptimizationError]) if and only
    if some variable of the problem has a type outside Continuous, Binary,
    Integer, and the message names the type of such a variable.  Whenever
    [convert] raises that error, some variable has such a type.  When the
    penalty is not obtained, which happens only in the estimating mode when
    [math.fsum] overflows, [convert] raises that [OverflowError] before it
    looks at any variable, whatever their types. *)
Theorem convert_unsupported_vartype_iff (problem : loc) (w : World) (P : QuadraticProgram) :
  heap w !! problem = Some P →
  let unsupported := ∃ x, x ∈ variables P ∧ vartype x ∉ [CONTINUOUS; BINARY; INTEGER] in
  let raised := ∃ msg, (convert problem w).1 = Raise (QiskitOptimizationError msg) in
  (penalty_resolves w P → (raised ↔ unsupported))
  ∧ (raised → unsupported)
  ∧ (¬ penalty_resolves w P →
       _should_define_penalty (self w) = true
       ∧ (_auto_define_penalty (estimating P)).1 = Raise overflow_error
       ∧ (convert problem w).1 = Raise overflow_error)
  ∧ (∀ msg, (convert problem w).1 = Raise (QiskitOptimizationError msg) →
       ∃ x repr, x ∈ variables P ∧ vartype x = OTHER repr
                 ∧ msg = "Unsupported vartype: " +:+ repr).
Proof.
  intros Hp unsupported raised. subst unsupported raised.
  destruct (resolved (self w) P).1 as [penalty|e] eqn:Hresolved.
  2:{ destruct (resolved_Raise _ _ _ Hresolved) as (-> & Hs & _ & He).
      rewrite (convert_unresolved _ _ _ _ Hp Hresolved). cbn [fst].
      assert (Hno : ¬ penalty_resolves w P).
      { rewrite penalty_resolves_resolved, Hresolved. by intros [? ?]. }
      split_and!; [done|by intros [? ?]|done|done]. }
  assert (Hyes : penalty_resolves w P).
  { rewrite penalty_resolves_resolved. eauto. }
  destruct (forallb supported (variables P)) eqn:Hall.
  - assert (Hno : ∀ msg, (convert problem w).1 ≠ Raise (QiskitOptimizationError msg)).
    { intros msg. rewrite (convert_supported _ _ _ _ Hp Hresolved Hall).
      destruct (linear_loop _ _ _ _) as [[[acc|e] kept] out] eqn:Hres; simpl; [done|].
      intros [= ->].
      pose proof (linear_loop_Raise
                    (ObjSense_value (obj_sense (objective P))) penalty
                    (linear_constraints P) (initial_acc P)
                    (QiskitOptimizationError msg)) as HT.
      rewrite Hres in HT. by specialize (HT eq_refl). }
    assert (Hnone : ¬ ∃ x, x ∈ variables P ∧ vartype x ∉ [CONTINUOUS; BINARY; INTEGER]).
    { intros (x & Hx & Ht). apply supported_false_iff in Ht.
      assert (forallb supported (variables P) = false) as Hf
        by (apply forallb_supported_false; eauto).
      congruence. }
    split_and!.
    + intros _. split; [|done]. intros [msg Hm]. by destruct (Hno msg).
    + intros [msg Hm]. by destruct (Hno msg).
    + done.
    + intros msg Hm. by destruct (Hno msg).
  - destruct (convert_unsupported _ _ _ _ Hp Hresolved Hall) as (x & Hx & Hs & Hr).
    assert (Hsome : ∃ x, x ∈ variables P ∧ vartype x ∉ [CONTINUOUS; BINARY; INTEGER]).
    { exists x. split; [done|]. by apply supported_false_iff. }
    split_and!.
    + intros _. split; [done|]. intros _. rewrite Hr. unfold unsupported_error. eauto.
    + done.
    + done.
    + intros msg. rewrite Hr. unfold unsupported_error, supported in *.
      destruct (vartype x) as [| | |repr] eqn:Ht; try done.
      intros [= <-]. eauto.
Qed.

(** C5, as amended: a successful [convert] gives the destination as many
    variables as the source has, in the same order, with the same names and
    types; the bounds are those of the source for Continuous and Integer
    variables, and 0 and 1 for Binary variables. *)
Theorem convert_variables (problem : loc) (w : World) (P : QuadraticProgram) (dst : loc) :
  heap w !! problem = Some P →
  (convert problem w).1 = Ok dst →
  ∃ D, heap (convert problem w).2 !! dst = Some D
    ∧ length (variables D) = length (variables P)
    ∧ ∀ i x, variables P !! i = Some x →
        ∃ y, variables D !! i = Some y
          ∧ name y = name x ∧ vartype y = vartype x
          ∧ (vartype x ≠ BINARY →
               lowerbound y = lowerbound x ∧ upperbound y = upperbound x)
          ∧ (vartype x = BINARY → lowerbound y = 0 ∧ upperbound y = 1).
Proof.
  intros Hp Hok.
  destruct (convert_Ok _ _ _ _ Hp Hok) as (-> & Hall & penalty & acc & _ & HD & _).
  exists (destination P acc). split; [done|]. simpl.
  split; [by rewrite length_fmap|].
  intros i x Hx. exists (dst_variable x). rewrite list_lookup_fmap, Hx. split; [done|].
  assert (supported x = true) as Hs.
  { rewrite forallb_forall in Hall. apply Hall, list_elem_of_In.
    by apply list_elem_of_lookup_2 in Hx. }
  unfold supported in Hs. unfold dst_variable, dst_var.
  destruct (vartype x) eqn:Ht; try done; simpl; by split_and!.
Qed.

(** C6: after [convert] was called on a problem [P] (whatever the outcome
    of that call), [interpret v] returns [v] when [v] has as many entries as
    [P] has variables and raises [QiskitOptimizationError] otherwise; it
    changes nothing. *)
Theorem interpret_after_convert (problem : loc) (w : World) (P : QuadraticProgram)
    (v : list Qc) :
  heap w !! problem = Some P →
  let w' := (convert problem w).2 in
  interpret v w'
  = (if decide (length v = length (variables P)) then Ok v
     else Raise (QiskitOptimizationError
       "The number of variables in the passed result differs from that of the original problem."),
     w').
Proof.
  intros Hp w'. destruct (convert_src _ _ _ Hp) as [Hs Hh].
  unfold interpret. rewrite bind_run.
  rewrite (self_src_run _ w' _ _ Hs Hh). unfold get_num_vars.
  destruct (decide (length v = length (variables P))) as [Heq|Hne].
  - rewrite decide_False by (intros Hn; by apply Hn). done.
  - by rewrite decide_True.
Qed.

(** C7: [convert] changes no object that existed before the call, the
    argument included: the copy it keeps and the destination it returns are
    new objects, and a later update of one of the destination and the
    argument does not reach the other. *)
Theorem convert_frame (problem : loc) (w : World) (P : QuadraticProgram) :
  heap w !! problem = Some P →
  let w' := (convert problem w).2 in
  heap w' !! problem = Some P
  ∧ (∀ l, l ∈ dom (heap w) → heap w' !! l = heap w !! l)
  ∧ (∀ l, _src (self w') = Some l → l ∉ dom (heap w))
  ∧ (∀ dst, (convert problem w).1 = Ok dst →
       (dst ∉ dom (heap w)) ∧ dst ≠ problem ∧ _src (self w') ≠ Some dst
       ∧ (∀ f, heap (update dst f w').2 !! problem = Some P)
       ∧ (∀ f, heap (update problem f w').2 !! dst = heap w' !! dst)).
Proof.
  intros Hp w'.
  destruct (convert_heap _ _ _ Hp) as [D HD].
  destruct (convert_src _ _ _ Hp) as [Hs _].
  fold w' in HD, Hs.
  pose proof (src_ref_fresh w) as Hfs. pose proof (dst_ref_fresh w P) as Hfd.
  assert (Hframe : ∀ l, l ∈ dom (heap w) → heap w' !! l = heap w !! l).
  { intros l Hl. rewrite HD. apply elem_of_dom in Hl as [Q HQ].
    rewrite !lookup_insert_ne; [done|..].
    - intros <-. by rewrite Hfs in HQ.
    - intros <-. rewrite lookup_insert_ne in Hfd; [by rewrite Hfd in HQ|].
      apply src_dst_ne. }
  assert (Hin : problem ∈ dom (heap w)) by (apply elem_of_dom; eauto).
  split_and!.
  - by rewrite Hframe.
  - done.
  - intros l. rewrite Hs. intros [= <-]. by apply not_elem_of_dom.
  - intros dst Hok.
    destruct (convert_Ok _ _ _ _ Hp Hok) as (-> & _).
    assert (dst_ref w P ∉ dom (heap w)) as Hnd.
    { apply not_elem_of_dom. rewrite lookup_insert_ne in Hfd; [done|]. apply src_dst_ne. }
    assert (dst_ref w P ≠ problem) as Hne by (intros Heq; by rewrite Heq in Hnd).
    split_and!; [done|done| | |].
    + rewrite Hs. intros [= Heq]. by apply (src_dst_ne w P).
    + intros f. simpl. rewrite lookup_alter_ne by done. by rewrite Hframe.
    + intros f. simpl. by rewrite lookup_alter_ne.
Qed.

(** C1: three binary variables, the objective [x0 + x1] and the single
    constraint [x0 + x1 <= 1], which the first template matches, converted
    with the configured penalty [p]: the destination has no linear
    constraint, the linear map of its objective is still [{x0: 1, x1: 1}],
    and under Minimize its quadratic coefficient on [(x0, x1)] is [p] and its
    constant [p], under Maximize [-p] and [-p]; no other pair has a
    quadratic coefficient, so that the quadratic map is [{(x0, x1): p}],
    resp. [{(x0, x1): -p}], unless [p] is 0 (the maps hold no zero). *)
Theorem convert_at_most_one (s : ObjSense) (p : Qc) (problem : loc) (w : World) :
  is_special_constraint pattern_A (at_most_one_of 0 1) = true →
  heap w !! problem = Some (at_most_one s 0 1) →
  _should_define_penalty (self w) = false →
  _penalty (self w) = Some p →
  let sp := match s with MINIMIZE => p | MAXIMIZE => - p end in
  ∃ dst D,
    (convert problem w).1 = Ok dst
    ∧ heap (convert problem w).2 !! dst = Some D
    ∧ linear_constraints D = []
    ∧ to_dict (obj_linear (objective D)) = <[1%nat:=1]> {[0%nat := 1]}
    ∧ (∀ k, coefficient (to_dict (obj_quadratic (objective D))) k
            = if decide (k = (0%nat, 1%nat)) then sp else 0)
    ∧ (p ≠ 0 → to_dict (obj_quadratic (objective D)) = {[(0%nat, 1%nat) := sp]})
    ∧ obj_constant (objective D) = sp
    ∧ obj_sense (objective D) = s
    ∧ ObjSense_value s = match s with MINIMIZE => 1 | MAXIMIZE => - 1 end.
Proof.
  intros Hmatch Hp Hshould Hpen sp.
  assert (Hall : forallb supported (variables (at_most_one s 0 1)) = true) by done.
  assert (Hres : resolved (self w) (at_most_one s 0 1) = (Ok (Some p), [])).
  { rewrite (resolved_configured _ _ Hshould). by rewrite Hpen. }
  pose proof (convert_supported _ _ _ (Some p) Hp (f_equal fst Hres) Hall) as Hrun.
  cbv zeta in Hrun. rewrite Hres in Hrun. cbn [fst snd] in Hrun.
  rewrite linear_loop_Some in Hrun.
  assert (Hfm : first_match (at_most_one_of 0 1) = Some pattern_A).
  { unfold first_match, _special_constraints. simpl. by rewrite Hmatch. }
  change (linear_constraints (at_most_one s 0 1)) with [at_most_one_of 0 1] in Hrun.
  assert (Hom : omap first_match [at_most_one_of 0 1] = [pattern_A]).
  { cbn [omap list_omap]. by rewrite Hfm. }
  rewrite Hom in Hrun. cbn [fst snd foldl] in Hrun.
  exists (dst_ref w (at_most_one s 0 1)). eexists.
  rewrite Hrun. cbn [fst snd heap]. rewrite lookup_insert_eq.
  split; [done|]. split; [done|].
  unfold destination, absorb, initial_acc.
  destruct pattern_A_penalty as (Hc & Hl & Hq). rewrite Hc, Hl, Hq.
  rewrite add_row_pure_empty, add_row_pure_singleton.
  cbn [linear_constraints objective obj_linear obj_quadratic obj_constant obj_sense
       fst snd fmap list_fmap].
  assert (Hsp : ObjSense_value (obj_sense (objective (at_most_one s 0 1))) * p * 1 = sp).
  { subst sp. destruct s; simpl; ring. }
  assert (Hq0 : to_dict (obj_quadratic (objective (at_most_one s 0 1)))
                = (∅ : gmap (nat * nat) Qc)) by apply map_filter_empty.
  rewrite Hq0, Hsp. unfold dict_add. rewrite lookup_empty. simpl default.
  rewrite Qcplus_0_l.
  split_and!.
  - change (linear_constraints (at_most_one s 0 1)) with [at_most_one_of 0 1].
    rewrite filter_cons_False by (rewrite Hfm; done). done.
  - rewrite to_dict_idemp. by_evaluation.
  - intros k. rewrite coefficient_to_dict_of_dict. unfold coefficient.
    destruct (decide (k = (0%nat, 1%nat))) as [->|Hk].
    + by rewrite lookup_insert_eq.
    + rewrite lookup_insert_ne by done. by rewrite lookup_empty.
  - intros Hp0.
    assert (Hsp0 : sp ≠ 0).
    { subst sp. destruct s; [done|]. intros Hz. apply Hp0.
      rewrite <- (Qcopp_involutive p), Hz. ring. }
    rewrite to_dict_of_dict, insert_empty. by rewrite map_filter_singleton_True.
  - simpl. ring.
  - done.
  - by destruct s.
Qed.

(** C4: after a successful [convert], the linear constraints of the
    destination are the source's constraints that match no template, in
    order, each with the same coefficients, sense, right-hand side and name;
    the quadratic constraints are the source's, likewise; and the objective
    is the source's objective with the penalties of the matching constraints
    only: the constraints that match no template add nothing to it. *)
Theorem unmatched_constraints_pass_through (problem : loc) (w : World)
    (P : QuadraticProgram) (dst : loc) :
  heap w !! problem = Some P →
  (convert problem w).1 = Ok dst →
  ∃ D, heap (convert problem w).2 !! dst = Some D
    ∧ Forall2 same_linear_constraint
        (filter (λ c, first_match c = None) (linear_constraints P)) (linear_constraints D)
    ∧ Forall2 same_quadratic_constraint (quadratic_constraints P) (quadratic_constraints D)
    ∧ (∀ p, _penalty (self (convert problem w).2) = Some p →
         let acc := foldl (λ acc sc, absorb (ObjSense_value (obj_sense (objective P))) p sc acc)
                      (initial_acc P)
                      (omap first_match
                         (filter (λ c, first_match c ≠ None) (linear_constraints P))) in
         objective D
         = mkQuadraticObjective acc.1.1 (of_dict acc.1.2) (of_dict acc.2)
             (obj_sense (objective P)))
    ∧ (Forall (λ c, first_match c = None) (linear_constraints P) →
         obj_constant (objective D) = obj_constant (objective P)
         ∧ to_dict (obj_linear (objective D)) = to_dict (obj_linear (objective P))
         ∧ to_dict (obj_quadratic (objective D)) = to_dict (obj_quadratic (objective P))
         ∧ obj_sense (objective D) = obj_sense (objective P)).
Proof.
  intros Hp Hok.
  destruct (convert_Ok _ _ _ _ Hp Hok)
    as (-> & Hall & penalty & acc & _ & HD & Hpen & HS & HN).
  exists (destination P acc). split; [done|].
  split_and!.
  - apply Forall2_fmap_same, copy_lc_same.
  - apply Forall2_fmap_same, copy_qc_same.
  - intros p Hp'. rewrite Hpen in Hp'. rewrite omap_first_match_matched.
    simpl. by rewrite <- (HS p Hp').
  - intros Hnone.
    pose proof (omap_first_match_none _ Hnone) as Hom.
    assert (acc = initial_acc P) as ->.
    { destruct penalty as [p|].
      - rewrite (HS p eq_refl), Hom. done.
      - by destruct (HN eq_refl). }
    unfold destination, initial_acc. simpl. by rewrite !to_dict_idemp.
Qed.

(** C8: once a penalty [p] is configured, by the constructor or by the
    setter, every later [convert] is [convert] with [p] for its local
    penalty, with no estimate computed, leaves [p] recorded, and when it
    succeeds the objective of its destination is the source's with the
    penalties of the matched templates scaled by [p]; when [None] is
    configured, every later [convert] computes the estimate from its own
    source problem, whatever penalty an earlier call recorded, and when it
    succeeds the penalties are scaled by that estimate, which it records:
    recording the penalty used does not leave the estimating mode. *)
Theorem configured_penalty_across_calls (pen : option Qc) (w0 w : World) :
  rtc call (penalty_setter pen w0).2 w ∨ rtc call (__init__ pen w0).2 w →
  ∀ problem,
    match pen with
    | Some p =>
        convert problem w = convert_from (mret (Some p)) problem w
        ∧ _should_define_penalty (self (convert problem w).2) = false
        ∧ _penalty (self (convert problem w).2) = Some p
        ∧ ∀ P dst, heap w !! problem = Some P → (convert problem w).1 = Ok dst →
            ∃ D, heap (convert problem w).2 !! dst = Some D
              ∧ let acc := foldl (λ acc sc,
                             absorb (ObjSense_value (obj_sense (objective P))) p sc acc)
                             (initial_acc P) (omap first_match (linear_constraints P)) in
                objective D
                = mkQuadraticObjective acc.1.1 (of_dict acc.1.2) (of_dict acc.2)
                    (obj_sense (objective P))
    | None =>
        convert problem w
        = convert_from (p ← _auto_define_penalty; mret (Some p)) problem w
        ∧ _should_define_penalty (self (convert problem w).2) = true
        ∧ (∀ recorded,
            let w' := (set_penalty recorded w).2 in
            (convert problem w').1 = (convert problem w).1
            ∧ heap (convert problem w').2 = heap (convert problem w).2
            ∧ log (convert problem w').2 = log (convert problem w).2)
        ∧ ∀ P dst, heap w !! problem = Some P → (convert problem w).1 = Ok dst →
            ∃ v D, (_auto_define_penalty (estimating P)).1 = Ok v
              ∧ _penalty (self (convert problem w).2) = Some v
              ∧ heap (convert problem w).2 !! dst = Some D
              ∧ let acc := foldl (λ acc sc,
                             absorb (ObjSense_value (obj_sense (objective P))) v sc acc)
                             (initial_acc P) (omap first_match (linear_constraints P)) in
                objective D
                = mkQuadraticObjective acc.1.1 (of_dict acc.1.2) (of_dict acc.2)
                    (obj_sense (objective P))
    end.
Proof.
  intros Hreach problem.
  assert (Hc : configured pen w).
  { destruct Hreach as [Hr|Hr];
      eauto using calls_configured, penalty_setter_configured, init_configured. }
  pose proof (convert_configured pen problem w Hc) as [Hs' Hp'].
  destruct Hc as [Hs Hp]. destruct pen as [p|].
  - rewrite bool_decide_eq_false_2 in Hs, Hs' by done.
    split_and!; [|done|by apply Hp'|].
    + apply convert_from_ext. intros w2 Hs2 Hp2.
      unfold resolve_penalty. rewrite bind_run. simpl.
      by rewrite Hs2, Hs, Hp2, (Hp p eq_refl).
    + intros P dst Hl Hok.
      destruct (convert_Ok _ _ _ _ Hl Hok)
        as (-> & _ & penalty & acc & Hres & HD & _ & HS & _).
      rewrite (resolved_configured _ _ Hs), (Hp p eq_refl) in Hres.
      injection Hres as <-.
      exists (destination P acc). split; [done|]. cbn zeta.
      rewrite <- (HS p eq_refl). done.
  - rewrite bool_decide_eq_true_2 in Hs, Hs' by done.
    split_and!; [|done| |].
    + apply convert_from_ext. intros w2 Hs2 _.
      unfold resolve_penalty. rewrite bind_run. simpl. by rewrite Hs2, Hs.
    + intros recorded w'.
      destruct (heap w !! problem) as [P|] eqn:Hl.
      * assert (heap w' !! problem = Some P) as Hl' by done.
        rewrite (convert_run _ _ _ Hl), (convert_run _ _ _ Hl').
        assert (resolved (self w') P = resolved (self w) P) as Hres.
        { unfold resolved. subst w'. simpl. by rewrite Hs. }
        unfold convert_pure. rewrite Hres. simpl. done.
      * assert (heap w' !! problem = None) as Hl' by done.
        by rewrite !convert_dangling.
    + intros P dst Hl Hok.
      destruct (convert_Ok _ _ _ _ Hl Hok)
        as (-> & _ & penalty & acc & Hres & HD & Hpen & HS & _).
      destruct (resolved_estimating _ _ _ Hs Hres) as (v & Hv & ->).
      exists v, (destination P acc). split_and!; [done..|]. cbn zeta.
      rewrite <- (HS v eq_refl). done.
Qed.
End theorems.

(** C10: as long as [self._src] is [None], as [__init__] leaves it,
    [interpret] raises [AttributeError] for every vector, not the
    dimension-mismatch error. *)
Theorem interpret_before_convert (w : World) (v : list Qc) :
  (∀ pen, _src (self (__init__ pen w).2) = None)
  ∧ (_src (self w) = None →
     interpret v w
     = (Raise (AttributeError "'NoneType' object has no attribute 'get_num_vars'"), w)).
Proof.
  split; [done|]. intros Hs.
  unfold interpret. rewrite bind_run.
  by rewrite (self_src_None _ _ Hs).
Qed.



(** C9 as stated does not hold.  The problem [huge] has a variable of an
    unsupported type; in the estimating mode [convert] raises the
    [OverflowError] of [math.fsum], and not the error of the unsupported
    type: the penalty is estimated before the variables are looked at. *)
Lemma overflow_before_unsupported_vartype :
  let w := start huge None in
  heap w !! 1%positive = Some huge
  ∧ vartype <$> variables huge = [BINARY; OTHER "Type.SEMICONTINUOUS"]
  ∧ _should_define_penalty (self w) = true
  ∧ (convert (matcher:=matches) 1%positive w).1
    = Raise (OverflowError "intermediate overflow in fsum")
  ∧ (variables <$> heap (convert (matcher:=matches) 1%positive w).2 !! 3%positive) = Some [].
Proof. split_and!; by_evaluation. Qed.

(** C5 as stated does not hold: the binary variable of [fixed_binary] has
    the bounds 0 and 0, [convert] succeeds, and the binary variable of the
    destination has the bounds 0 and 1. *)
Lemma binary_bounds_not_preserved :
  let w := start fixed_binary None in
  heap w !! 1%positive = Some fixed_binary
  ∧ variables fixed_binary
    = [mkVariable "x0" 0 0 BINARY; mkVariable "x1" (- 1) (Qc_of_Z 5) INTEGER]
  ∧ variables <$> converted (matcher:=matches) 1%positive w
    = Some [mkVariable "x0" 0 1 BINARY; mkVariable "x1" (- 1) (Qc_of_Z 5) INTEGER]
  ∧ variables <$> converted (matcher:=matches) 1%positive w
    ≠ Some (variables fixed_binary).
Proof. split_and!; by_evaluation. Qed.

(** ** The theorems at concrete inputs

    Each lemma applies a theorem above to an example problem, in a world
    with a freshly built converter, with the matching test [matches]. *)

Lemma convert_unsupported_vartype_iff_witness :
  let w := start semicontinuous None in
  heap w !! 1%positive = Some semicontinuous
  ∧ penalty_resolves w semicontinuous
  ∧ ((∃ msg, (convert (matcher:=matches) 1%positive w).1
             = Raise (QiskitOptimizationError msg))
     ↔ ∃ x, x ∈ variables semicontinuous ∧ vartype x ∉ [CONTINUOUS; BINARY; INTEGER]).
Proof.
  intros w.
  assert (Hr : penalty_resolves w semicontinuous).
  { right. exists 1. by_evaluation. }
  split; [reflexivity|]. split; [exact Hr|].
  exact (proj1 (convert_unsupported_vartype_iff (matcher:=matches) 1%positive w
                  semicontinuous eq_refl) Hr).
Defined.

Lemma convert_variables_witness :
  let w := start fixed_binary None in
  heap w !! 1%positive = Some fixed_binary
  ∧ (convert (matcher:=matches) 1%positive w).1 = Ok 3%positive
  ∧ ∃ D, heap (convert (matcher:=matches) 1%positive w).2 !! 3%positive = Some D
         ∧ length (variables D) = length (variables fixed_binary).
Proof.
  intros w.
  assert (Hok : (convert (matcher:=matches) 1%positive w).1 = Ok 3%positive)
    by (vm_compute; reflexivity).
  split; [reflexivity|]. split; [exact Hok|].
  destruct (convert_variables (matcher:=matches) 1%positive w fixed_binary 3%positive
              eq_refl Hok) as (D & HD & Hlen & _).
  exists D. split; [exact HD|exact Hlen].
Defined.

Lemma interpret_after_convert_witness :
  let w := start (at_most_one MINIMIZE 0 1) None in
  let w' := (convert (matcher:=matches) 1%positive w).2 in
  heap w !! 1%positive = Some (at_most_one MINIMIZE 0 1)
  ∧ interpret [1; 0; 0] w' = (Ok [1; 0; 0], w')
  ∧ (interpret [1; 0] w').1
    = Raise (QiskitOptimizationError
        "The number of variables in the passed result differs from that of the original problem.").
Proof.
  intros w w'. split; [reflexivity|]. split.
  - exact (interpret_after_convert (matcher:=matches) 1%positive w
             (at_most_one MINIMIZE 0 1) [1; 0; 0] eq_refl).
  - exact (f_equal fst (interpret_after_convert (matcher:=matches) 1%positive w
             (at_most_one MINIMIZE 0 1) [1; 0] eq_refl)).
Defined.

Lemma interpret_before_convert_witness :
  let w := start (at_most_one MINIMIZE 0 1) None in
  _src (self w) = None
  ∧ interpret [1; 0; 0] w
    = (Raise (AttributeError "'NoneType' object has no attribute 'get_num_vars'"), w).
Proof.
  intros w. split; [reflexivity|].
  exact (proj2 (interpret_before_convert w [1; 0; 0]) eq_refl).
Defined.

Lemma convert_frame_witness :
  let w := start (at_most_one MINIMIZE 0 1) (Some 1) in
  heap w !! 1%positive = Some (at_most_one MINIMIZE 0 1)
  ∧ heap (convert (matcher:=matches) 1%positive w).2 !! 1%positive
    = Some (at_most_one MINIMIZE 0 1).
Proof.
  intros w. split; [reflexivity|].
  exact (proj1 (convert_frame (matcher:=matches) 1%positive w
                  (at_most_one MINIMIZE 0 1) eq_refl)).
Defined.


Lemma convert_at_most_one_witness :
  let w := start (at_most_one MINIMIZE 0 1) (Some (Qc_of_Z 10)) in
  matches pattern_A (at_most_one_of 0 1) = true
  ∧ heap w !! 1%positive = Some (at_most_one MINIMIZE 0 1)
  ∧ _should_define_penalty (self w) = false
  ∧ _penalty (self w) = Some (Qc_of_Z 10)
  ∧ ∃ dst D,
      (convert (matcher:=matches) 1%positive w).1 = Ok dst
      ∧ heap (convert (matcher:=matches) 1%positive w).2 !! dst = Some D
      ∧ linear_constraints D = []
      ∧ obj_constant (objective D) = Qc_of_Z 10.
Proof.
  intros w.
  assert (Hm : matches pattern_A (at_most_one_of 0 1) = true) by (vm_compute; reflexivity).
  split; [exact Hm|]. split; [reflexivity|]. split; [reflexivity|]. split; [reflexivity|].
  destruct (convert_at_most_one (matcher:=matches) MINIMIZE (Qc_of_Z 10) 1%positive w
              Hm eq_refl eq_refl eq_refl)
    as (dst & D & Hok & HD & Hlc & _ & _ & _ & Hc & _).
  exists dst, D. split; [exact Hok|]. split; [exact HD|]. split; [exact Hlc|exact Hc].
Defined.

Lemma unmatched_constraints_pass_through_witness :
  let w := start mixed (Some (Qc_of_Z 10)) in
  heap w !! 1%positive = Some mixed
  ∧ (convert (matcher:=matches) 1%positive w).1 = Ok 3%positive
  ∧ ∃ D, heap (convert (matcher:=matches) 1%positive w).2 !! 3%positive = Some D
         ∧ Forall2 same_linear_constraint
             (filter (λ c, first_match (matcher:=matches) c = None) (linear_constraints mixed))
             (linear_constraints D)
         ∧ Forall2 same_quadratic_constraint
             (quadratic_constraints mixed) (quadratic_constraints D).
Proof.
  intros w.
  assert (Hok : (convert (matcher:=matches) 1%positive w).1 = Ok 3%positive)
    by (vm_compute; reflexivity).
  split; [reflexivity|]. split; [exact Hok|].
  destruct (unmatched_constraints_pass_through (matcher:=matches) 1%positive w mixed
              3%positive eq_refl Hok) as (D & HD & Hl & Hq & _).
  exists D. split; [exact HD|]. split; [exact Hl|exact Hq].
Defined.

Lemma configured_penalty_across_calls_witness :
  let w0 := mkWorld {[1%positive := at_most_one MINIMIZE 0 1]}
              (mkConverter None None None true) [] [] in
  let w := (convert (matcher:=matches) 1%positive
              (penalty_setter (Some (Qc_of_Z 10)) w0).2).2 in
  rtc (call (matcher:=matches)) (penalty_setter (Some (Qc_of_Z 10)) w0).2 w
  ∧ _penalty (self (convert (matcher:=matches) 1%positive w).2) = Some (Qc_of_Z 10).
Proof.
  intros w0 w.
  assert (Hr : rtc (call (matcher:=matches)) (penalty_setter (Some (Qc_of_Z 10)) w0).2 w).
  { apply rtc_once. left. exists 1%positive. reflexivity. }
  split; [exact Hr|].
  exact (proj1 (proj2 (proj2 (configured_penalty_across_calls (matcher:=matches)
                                (Some (Qc_of_Z 10)) w0 w (or_introl Hr) 1%positive)))).
Defined.

(** ** Further properties of the converter *)

Section coefficients.
Context `{Countable K}.

Lemma coefficient_dict_add (v : Qc) (k k' : K) (d : gmap K Qc) :
  coefficient (dict_add v k d) k' = coefficient d k' + (if decide (k' = k) then v else 0).
Proof.
  unfold coefficient, dict_add. destruct (decide (k' = k)) as [->|Hne].
  - by rewrite lookup_insert_eq.
  - rewrite lookup_insert_ne by done. by rewrite Qcplus_0_r.
Qed.

Lemma coefficient_add_row_pure (sense p : Qc) (row d : gmap K Qc) (k : K) :
  coefficient (add_row_pure sense p row d) k
  = coefficient d k + sense * p * coefficient row k.
Proof.
  unfold coefficient. rewrite add_row_pure_lookup.
  destruct (row !! k) as [c|]; simpl; [done|]. ring.
Qed.

(** Two dictionaries with the same coefficients are stored as the same
    expression, as far as [to_dict] shows. *)
Lemma to_dict_of_dict_ext (d1 d2 : gmap K Qc) :
  (∀ k, coefficient d1 k = coefficient d2 k) →
  to_dict (of_dict d1) = to_dict (of_dict d2).
Proof.
  intros Hco. rewrite !to_dict_of_dict. apply map_eq. intros k. apply option_eq. intros x.
  rewrite !map_lookup_filter_Some. simpl. specialize (Hco k). unfold coefficient in Hco.
  split; intros [Hk Hx]; (split; [|done]); rewrite Hk in Hco; simpl in Hco.
  - destruct (d2 !! k) as [y|]; simpl in Hco; congruence.
  - destruct (d1 !! k) as [y|]; simpl in Hco; congruence.
Qed.

Lemma to_dict_no_zero (e : Expression K) (k : K) (x : Qc) :
  to_dict e !! k = Some x → x ≠ 0.
Proof. unfold to_dict. rewrite map_lookup_filter_Some. simpl. tauto. Qed.
End coefficients.

(** The penalties of a list of templates, folded one after the other, add
    up (in exact arithmetic). *)
Lemma foldl_absorb (sense p : Qc) (scs : list SpecialConstraint) (acc : Acc) :
  let acc' := foldl (λ acc sc, absorb sense p sc acc) acc scs in
  acc'.1.1 = acc.1.1 + sense * p * exact_sum (penalty_constant <$> scs)
  ∧ (∀ j, coefficient acc'.1.2 j
          = coefficient acc.1.2 j
            + sense * p * exact_sum ((λ sc, coefficient (to_dict (penalty_linear_expression sc)) j)
                                  <$> scs))
  ∧ (∀ k, coefficient acc'.2 k
          = coefficient acc.2 k
            + sense * p * exact_sum ((λ sc, coefficient (to_dict (penalty_quadratic_expression sc)) k)
                                  <$> scs)).
Proof.
  unfold exact_sum. revert acc. induction scs as [|sc scs IH]; intros acc; simpl.
  { split_and!; intros; ring. }
  destruct (IH (absorb sense p sc acc)) as (Hc & Hl & Hq).
  destruct acc as [[offset linear] quadratic]. simpl in *.
  split_and!.
  - rewrite Hc. unfold fmap. ring.
  - intros j. rewrite Hl, coefficient_add_row_pure. unfold fmap. ring.
  - intros k. rewrite Hq, coefficient_add_row_pure. unfold fmap. ring.
Qed.

Lemma set_variables_prefix (xs : list Var) (D : QuadraticProgram) :
  (set_variables xs D).2
  = mkQuadraticProgram (qp_name D) (variables D ++ (dst_variable <$> supported_prefix xs))
      (objective D) (linear_constraints D) (quadratic_constraints D).
Proof.
  revert D. induction xs as [|x xs IH]; intros D; simpl.
  { rewrite app_nil_r. by destruct D. }
  destruct (supported x) eqn:Hx.
  - rewrite (dst_var_supported _ Hx), IH. simpl. by rewrite <- app_assoc.
  - rewrite (dst_var_unsupported _ Hx). simpl. rewrite app_nil_r. by destruct D.
Qed.

Lemma Qcabs_nonneg (x : Qc) : 0 ≤ Qcabs x.
Proof.
  unfold Qcabs. destruct (decide (x < 0)) as [Hx|Hx].
  - apply Qclt_le_weak in Hx. apply Qcopp_le_compat in Hx. exact Hx.
  - by apply Qcnot_lt_le.
Qed.

Lemma exact_sum_abs_bounds (l : list Qc) :
  0 ≤ exact_sum (Qcabs <$> l) ∧ ∀ c, c ∈ l → Qcabs c ≤ exact_sum (Qcabs <$> l).
Proof.
  unfold exact_sum. induction l as [|x l [IH0 IH]]; simpl.
  { split; [apply Qcle_refl|]. intros c Hc. by apply elem_of_nil in Hc. }
  split.
  - apply Qcplus_nonneg_nonneg; [apply Qcabs_nonneg|exact IH0].
  - intros c Hc. apply elem_of_cons in Hc as [->|Hc].
    + rewrite <- (Qcplus_0_r (Qcabs x)) at 1. apply Qcplus_le_mono_l. exact IH0.
    + apply Qcle_trans with (foldr Qcplus 0 (Qcabs <$> l)); [by apply IH|].
      rewrite <- (Qcplus_0_l (foldr Qcplus 0 (Qcabs <$> l))) at 1.
      apply Qcplus_le_mono_r. apply Qcabs_nonneg.
Qed.

Lemma sum_abs_bounds `{Countable K} (d : gmap K Qc) :
  0 ≤ sum_abs d ∧ ∀ k c, d !! k = Some c → Qcabs c ≤ sum_abs d.
Proof.
  rewrite <- sum_abs_values. destruct (exact_sum_abs_bounds (dict_values d)) as [H0 Hle].
  split; [done|]. intros k c Hk. apply Hle. unfold dict_values.
  apply list_elem_of_fmap. exists (k, c). split; [done|]. by apply elem_of_map_to_list.
Qed.

(** Integers are ordered as rationals as they are as integers. *)
Lemma Qc_of_Z_le (a b : Z) : Qc_of_Z a ≤ Qc_of_Z b → (a ≤ b)%Z.
Proof. unfold Qcle, Qle. simpl. lia. Qed.

(** X5: when no term of the constraints is flagged and the sum of 1 and of
    the absolute values of the coefficients of the objective is an integer
    below [2^53] (as it is for integer coefficients of a moderate size),
    the estimate is that sum with no rounding: it is at least 1 and exceeds
    the absolute value of every coefficient of the objective. *)
Theorem estimate_dominates (w : World) (src : loc) (P : QuadraticProgram) (z : Z) :
  _src (self w) = Some src → heap w !! src = Some P →
  ¬ has_non_integral_term P →
  1 + sum_abs (to_dict (obj_linear (objective P)))
    + sum_abs (to_dict (obj_quadratic (objective P))) = Qc_of_Z z →
  (z < 2 ^ 53)%Z →
  ∃ v, (_auto_define_penalty w).1 = Ok v
    ∧ v = Qc_of_Z z
    ∧ 1 ≤ v
    ∧ (∀ j c, to_dict (obj_linear (objective P)) !! j = Some c → Qcabs c < v)
    ∧ (∀ k c, to_dict (obj_quadratic (objective P)) !! k = Some c → Qcabs c < v).
Proof.
  intros Hs Hp Hn Hz Hlt.
  destruct (sum_abs_bounds (to_dict (obj_linear (objective P)))) as [Hl0 Hl].
  destruct (sum_abs_bounds (to_dict (obj_quadratic (objective P)))) as [Hq0 Hq].
  set (a := sum_abs (to_dict (obj_linear (objective P)))) in *.
  set (b := sum_abs (to_dict (obj_quadratic (objective P)))) in *.
  assert (H1 : (0 : Qc) < 1) by by_evaluation.
  assert (Hge : 1 ≤ 1 + a + b).
  { rewrite <- Qcplus_assoc. rewrite <- (Qcplus_0_r 1) at 1.
    apply Qcplus_le_mono_l. by apply Qcplus_nonneg_nonneg. }
  assert (Hz1 : (1 ≤ z)%Z).
  { apply Qc_of_Z_le. rewrite <- Hz. exact Hge. }
  rewrite (auto_define_penalty_run _ _ _ Hs Hp). unfold estimate.
  destruct (non_integral_terms P) eqn:Ht.
  { destruct Hn. by apply non_integral_terms_true. }
  unfold fsum. rewrite exact_sum_penalties. fold a b. rewrite Hz.
  rewrite (round_double_integer z) by lia. cbn [fst].
  exists (Qc_of_Z z). split; [done|]. split; [done|]. rewrite <- Hz.
  split; [exact Hge|]. split.
  - intros j c Hc. apply Qcle_lt_trans with a; [by apply (Hl j)|].
    rewrite <- (Qcplus_0_l a) at 1.
    replace (1 + a + b) with ((1 + b) + a) by ring.
    apply Qcplus_lt_mono_r. by apply Qcplus_pos_nonneg.
  - intros k c Hc. apply Qcle_lt_trans with b; [by apply (Hq k)|].
    rewrite <- (Qcplus_0_l b) at 1.
    apply Qcplus_lt_mono_r. by apply Qcplus_pos_nonneg.
Qed.

(** X4: at every assignment of binary values to the reference variables,
    the penalty of the template [v0 + v1 >= 1] is 0 when the constraint
    holds and 1 when it is violated, and the penalty of the template
    [v0 + v1 <= 1] is 1 when the constraint holds and 2 when it is violated:
    a violation costs one unit more, and the second carries its constant 1
    at every point. *)
Theorem template_penalty_values (b0 b1 b2 : bool) :
  let x := binary_assignment b0 b1 b2 in
  penalty_value pattern_A x = 1 + (if satisfied pattern_A x then 0 else 1)
  ∧ penalty_value pattern_B x = (if satisfied pattern_B x then 0 else 1)
  ∧ satisfied pattern_A x = negb (b0 && b1)
  ∧ satisfied pattern_B x = (b0 || b1).
Proof. destruct b0, b1, b2; split_and!; by_evaluation. Qed.

Section further.
Context {matcher : Matcher}.

(** X10: a configured penalty of 0 is a penalty like any other (only [None]
    asks for an estimate): [convert] then drops every constraint that
    matches a template and leaves the objective as it was. *)
Theorem zero_penalty_drops_constraints (problem : loc) (w0 : World) (P : QuadraticProgram) :
  let w := (penalty_setter (Some 0) w0).2 in
  heap w0 !! problem = Some P →
  forallb supported (variables P) = true →
  ∃ dst D,
    (convert problem w).1 = Ok dst
    ∧ heap (convert problem w).2 !! dst = Some D
    ∧ obj_constant (objective D) = obj_constant (objective P)
    ∧ to_dict (obj_linear (objective D)) = to_dict (obj_linear (objective P))
    ∧ to_dict (obj_quadratic (objective D)) = to_dict (obj_quadratic (objective P))
    ∧ Forall2 same_linear_constraint
        (filter (λ c, first_match c = None) (linear_constraints P)) (linear_constraints D).
Proof.
  intros w Hp Hall.
  assert (Hp' : heap w !! problem = Some P) by done.
  assert (Hres : resolved (self w) P = (Ok (Some 0), [])) by done.
  pose proof (convert_supported _ _ _ (Some 0) Hp' (f_equal fst Hres) Hall) as Hrun.
  cbv zeta in Hrun.
  rewrite Hres in Hrun. cbn [fst snd] in Hrun. rewrite linear_loop_Some in Hrun.
  cbn [fst snd] in Hrun.
  eexists _, _. rewrite Hrun. cbn [fst snd heap]. rewrite lookup_insert_eq.
  split; [done|]. split; [done|].
  set (s := ObjSense_value (obj_sense (objective P))).
  set (scs := omap first_match (linear_constraints P)).
  destruct (foldl_absorb s 0 scs (initial_acc P)) as (Hc & Hl & Hq).
  unfold destination. cbn [objective obj_constant obj_linear obj_quadratic linear_constraints].
  split_and!.
  - rewrite Hc. simpl. ring.
  - rewrite <- (to_dict_idemp (obj_linear (objective P))). apply to_dict_of_dict_ext.
    intros j. rewrite Hl. simpl. ring.
  - rewrite <- (to_dict_idemp (obj_quadratic (objective P))). apply to_dict_of_dict_ext.
    intros k. rewrite Hq. simpl. ring.
  - apply Forall2_fmap_same, copy_lc_same.
Qed.

Lemma has_penalty_init (pen : option Qc) (w : World) : has_penalty (__init__ pen w).2.
Proof. unfold has_penalty. simpl. destruct pen; [eauto|done]. Qed.

Lemma has_penalty_setter (pen : option Qc) (w : World) : has_penalty (penalty_setter pen w).2.
Proof. unfold has_penalty. simpl. destruct pen; [eauto|done]. Qed.

Lemma has_penalty_convert (problem : loc) (w : World) :
  has_penalty w → has_penalty (convert problem w).2.
Proof.
  unfold has_penalty. intros Hw. rewrite convert_should_define_penalty. intros Hs.
  destruct (heap w !! problem) as [P|] eqn:Hl.
  - rewrite (convert_run _ _ _ Hl). cbn [snd self].
    rewrite (resolved_configured _ _ Hs). cbn [fst].
    destruct (convert_pure _ _).1.1; by apply Hw.
  - rewrite convert_dangling by done. by apply Hw.
Qed.

Lemma has_penalty_uses (w w' : World) : has_penalty w → rtc use w w' → has_penalty w'.
Proof.
  intros Hw Hr. induction Hr as [|w1 w2 w3 Hu _ IH]; [done|]. apply IH.
  destruct Hu as [[[problem ->]|Hself]|[pen ->]].
  - by apply has_penalty_convert.
  - unfold has_penalty. by rewrite Hself.
  - apply has_penalty_setter.
Qed.

(** X1: a converter built by [__init__] and used through [convert], the
    setter of [penalty] and whatever leaves its fields alone always has a
    penalty to multiply with.  On a live problem [convert] therefore
    succeeds when the types of all variables are supported and the penalty
    is obtained, and raises nothing but the error of an unsupported type
    or, when it estimates the penalty, the [OverflowError] of [math.fsum]:
    never a [TypeError] from a penalty of [None], never an
    [AttributeError]. *)
Theorem convert_succeeds_or_unsupported (pen : option Qc) (w0 w : World)
    (problem : loc) (P : QuadraticProgram) :
  rtc use (__init__ pen w0).2 w →
  heap w !! problem = Some P →
  (forallb supported (variables P) = true → penalty_resolves w P →
     ∃ dst, (convert problem w).1 = Ok dst)
  ∧ (∀ e, (convert problem w).1 = Raise e →
       (penalty_resolves w P
        ∧ ∃ x, x ∈ variables P ∧ supported x = false ∧ e = unsupported_error x)
       ∨ (¬ penalty_resolves w P
          ∧ _should_define_penalty (self w) = true
          ∧ e = OverflowError "intermediate overflow in fsum")).
Proof.
  intros Hr Hp.
  pose proof (has_penalty_uses _ _ (has_penalty_init pen w0) Hr) as Hw.
  destruct (resolved (self w) P).1 as [penalty|e0] eqn:Hresolved.
  2:{ destruct (resolved_Raise _ _ _ Hresolved) as (-> & Hs & _ & He).
      assert (Hno : ¬ penalty_resolves w P).
      { rewrite penalty_resolves_resolved, Hresolved. by intros [? ?]. }
      rewrite (convert_unresolved _ _ _ _ Hp Hresolved). cbn [fst].
      split; [done|]. intros e [= <-]. by right. }
  assert (Hyes : penalty_resolves w P).
  { rewrite penalty_resolves_resolved. eauto. }
  assert (∃ p, penalty = Some p) as [p ->].
  { destruct (_should_define_penalty (self w)) eqn:Hs.
    - destruct (resolved_estimating _ _ _ Hs Hresolved) as (v & _ & ->). eauto.
    - rewrite (resolved_configured _ _ Hs) in Hresolved. injection Hresolved as <-.
      destruct (Hw Hs) as [p Hpen]. eauto. }
  destruct (forallb supported (variables P)) eqn:Hall.
  - pose proof (convert_supported _ _ _ _ Hp Hresolved Hall) as Hrun. cbv zeta in Hrun.
    rewrite linear_loop_Some in Hrun. cbn [fst snd] in Hrun.
    rewrite Hrun. split; [eauto|]. by intros e.
  - destruct (convert_unsupported _ _ _ _ Hp Hresolved Hall) as (x & Hx & Hs & Hraise).
    split; [done|]. intros e. rewrite Hraise. intros [= <-]. left. eauto.
Qed.

(** X2: [convert] is not undone when it fails.  When the penalty is
    obtained and a variable has an unsupported type, the converter already
    refers to a new copy of the argument and to a new destination, which
    holds the variables before the first unsupported one, no constraint and
    the objective of a new problem; the recorded penalty and the mode are
    those before the call, and nothing was printed.  When the estimator
    fails, the destination holds no variable at all. *)
Theorem convert_unsupported_state (problem : loc) (w : World) (P : QuadraticProgram) :
  heap w !! problem = Some P →
  let w' := (convert problem w).2 in
  ∃ src dst,
    _src (self w') = Some src ∧ _dst (self w') = Some dst
    ∧ src ≠ dst ∧ (src ∉ dom (heap w)) ∧ (dst ∉ dom (heap w))
    ∧ heap w' !! src = Some P
    ∧ (penalty_resolves w P → forallb supported (variables P) = false →
         heap w' !! dst
         = Some (mkQuadraticProgram (qp_name P)
                   (dst_variable <$> supported_prefix (variables P))
                   (objective (QuadraticProgram_new (qp_name P))) [] [])
         ∧ _penalty (self w') = _penalty (self w)
         ∧ _should_define_penalty (self w') = _should_define_penalty (self w)
         ∧ stdout w' = stdout w)
    ∧ (¬ penalty_resolves w P →
         heap w' !! dst = Some (QuadraticProgram_new (qp_name P))
         ∧ _penalty (self w') = _penalty (self w)
         ∧ _should_define_penalty (self w') = _should_define_penalty (self w)
         ∧ stdout w' = stdout w).
Proof.
  intros Hp w'. subst w'.
  pose proof (src_dst_ne w P) as Hne.
  pose proof (src_ref_fresh w) as Hfs. pose proof (dst_ref_fresh w P) as Hfd.
  rewrite lookup_insert_ne in Hfd by done.
  exists (src_ref w), (dst_ref w P).
  destruct (convert_src _ _ _ Hp) as [Hsrc Hcopy].
  assert (Hdst : _dst (self (convert problem w).2) = Some (dst_ref w P)).
  { rewrite (convert_run _ _ _ Hp). cbn [snd self].
    destruct (resolved _ _).1; by destruct (convert_pure _ _).1.1. }
  split_and!; [done|done|done|by apply not_elem_of_dom|by apply not_elem_of_dom|done| |].
  - intros Hyes Hall. apply penalty_resolves_resolved in Hyes as [penalty Hres].
    rewrite (convert_run _ _ _ Hp). cbn [snd heap self stdout].
    unfold convert_pure, body_pure. rewrite Hres.
    pose proof (set_variables_prefix (variables P) (QuadraticProgram_new (qp_name P))) as HD.
    destruct (set_variables_unsupported (variables P) (QuadraticProgram_new (qp_name P)) Hall)
      as (x & _ & _ & Hr).
    destruct (set_variables _ _) as [r D1]. simpl in Hr, HD. subst r D1. simpl.
    split_and!; try done.
    + apply lookup_insert_eq.
    + by rewrite app_nil_r.
  - intros Hno.
    destruct (resolved (self w) P).1 as [penalty|e] eqn:Hres.
    { destruct Hno. apply penalty_resolves_resolved. eauto. }
    rewrite (convert_unresolved _ _ _ _ Hp Hres). cbn [snd heap self stdout].
    split_and!; try done. apply lookup_insert_eq.
Qed.

(** X7: what [convert] logs.  With a configured penalty it logs nothing,
    whatever the coefficients of the constraints; when it estimates the
    penalty it logs the one warning of the default exactly when a
    right-hand side or a coefficient of a linear constraint is a float that
    is not integral, also when it fails afterwards. *)
Theorem convert_log (problem : loc) (w : World) (P : QuadraticProgram) :
  heap w !! problem = Some P →
  let w' := (convert problem w).2 in
  (_should_define_penalty (self w) = false → log w' = log w)
  ∧ (_should_define_penalty (self w) = true → has_non_integral_term P →
       log w' = log w ++ [(warning_text, Qc_of_Z 100000)])
  ∧ (_should_define_penalty (self w) = true → ¬ has_non_integral_term P → log w' = log w).
Proof.
  intros Hp w'. subst w'. rewrite (convert_run _ _ _ Hp). cbn [snd log].
  unfold resolved, estimate.
  split_and!; intros Hs; rewrite Hs; cbn [snd].
  - by rewrite app_nil_r.
  - intros Hn. apply non_integral_terms_true in Hn. by rewrite Hn.
  - intros Hn. destruct (non_integral_terms P) eqn:Ht.
    { destruct Hn. by apply non_integral_terms_true. }
    destruct (fsum (penalties P)); cbn [snd]; by rewrite app_nil_r.
Qed.

Lemma concat_printed (cs : list LinearConstraint) :
  concat (printed <$> cs)
  = flat_map (λ c,
      [out_str (match first_match c with
                | Some _ => "***Special!***"
                | None => "+++ Not Special +++"
                end);
       out_dict (to_dict (lc_linear c))]) cs.
Proof.
  induction cs as [|c cs IH]; [done|].
  rewrite fmap_cons. cbn [concat flat_map]. rewrite IH. unfold printed.
  by destruct (first_match c).
Qed.

(** X8: what a successful [convert] prints: for every linear constraint of
    the source, in order, the line that tells whether a template matched it
    and then its coefficients; nothing for the variables and the quadratic
    constraints. *)
Theorem convert_stdout (problem : loc) (w : World) (P : QuadraticProgram) (dst : loc) :
  heap w !! problem = Some P →
  (convert problem w).1 = Ok dst →
  stdout (convert problem w).2
  = stdout w ++ flat_map (λ c,
      [out_str (match first_match c with
                | Some _ => "***Special!***"
                | None => "+++ Not Special +++"
                end);
       out_dict (to_dict (lc_linear c))]) (linear_constraints P).
Proof.
  intros Hp Hok.
  destruct (convert_Ok _ _ _ _ Hp Hok) as (_ & Hall & penalty & _ & Hresolved & _).
  revert Hok. rewrite (convert_supported _ _ _ _ Hp Hresolved Hall).
  destruct (linear_loop _ _ _ _) as [[[acc|e] kept] out] eqn:Hres; simpl; [|done].
  intros _. destruct (linear_loop_Ok _ _ _ _ _ _ _ Hres) as (_ & -> & _).
  f_equal. apply concat_printed.
Qed.

(** X9: the getter of [penalty] returns what the setter stored, and after
    [convert] the penalty that call used: when the converter estimates, the
    estimate for the problem just converted, and not [None]; after a call
    that failed, what it returned before the call. *)
Theorem penalty_after_convert (problem : loc) (w : World) (P : QuadraticProgram) :
  heap w !! problem = Some P →
  let r := convert problem w in
  (∀ pen w1, penalty (penalty_setter pen w1).2 = (Ok pen, (penalty_setter pen w1).2))
  ∧ (∀ dst, r.1 = Ok dst → _should_define_penalty (self w) = true →
       ∃ v, (_auto_define_penalty (estimating P)).1 = Ok v ∧ penalty r.2 = (Ok (Some v), r.2))
  ∧ (∀ dst, r.1 = Ok dst → _should_define_penalty (self w) = false →
       penalty r.2 = (Ok (_penalty (self w)), r.2))
  ∧ (∀ e, r.1 = Raise e → penalty r.2 = (Ok (_penalty (self w)), r.2)).
Proof.
  intros Hp r. subst r. split; [done|].
  assert (Hget : ∀ w1, penalty w1 = (Ok (_penalty (self w1)), w1)) by done.
  rewrite !Hget. split_and!.
  - intros dst Hok Hs.
    destruct (convert_Ok _ _ _ _ Hp Hok) as (_ & _ & pen & acc & Hres & _ & Hpen & _).
    destruct (resolved_estimating _ _ _ Hs Hres) as (v & Hv & ->).
    exists v. split; [done|]. by rewrite Hpen.
  - intros dst Hok Hs.
    destruct (convert_Ok _ _ _ _ Hp Hok) as (_ & _ & pen & acc & Hres & _ & Hpen & _).
    rewrite (resolved_configured _ _ Hs) in Hres. injection Hres as <-. by rewrite Hpen.
  - intros e He. do 2 f_equal. revert He.
    rewrite (convert_run _ _ _ Hp). cbn [fst snd self].
    by destruct (convert_pure _ _).1.1.
Qed.
End further.

Lemma dst_variable_idemp (x : Var) : supported x = true → dst_variable (dst_variable x) = dst_variable x.
Proof. unfold supported, dst_variable, dst_var. by destruct (vartype x). Qed.

Lemma dst_variable_supported (x : Var) : supported x = true → supported (dst_variable x) = true.
Proof. unfold supported, dst_variable, dst_var. by destruct (vartype x). Qed.

Lemma dst_variables_again (xs : list Var) :
  forallb supported xs = true →
  forallb supported (dst_variable <$> xs) = true
  ∧ dst_variable <$> (dst_variable <$> xs) = dst_variable <$> xs.
Proof.
  induction xs as [|x xs IH]; [done|]. intros Hall. simpl in Hall.
  apply andb_prop in Hall as [Hx Hxs]. destruct (IH Hxs) as [IH1 IH2].
  rewrite !fmap_cons. cbn [forallb]. rewrite (dst_variable_supported _ Hx), IH1.
  split; [done|]. by rewrite (dst_variable_idemp _ Hx), IH2.
Qed.

Lemma filter_all {A} (Q : A → Prop) `{∀ x, Decision (Q x)} (l : list A) :
  Forall Q l → filter Q l = l.
Proof.
  induction 1 as [|x l Hx _ IH]; [done|]. rewrite filter_cons_True by done. by rewrite IH.
Qed.

Section further_composition.
Context {matcher : Matcher}.

Lemma first_match_extensional (c c' : LinearConstraint) :
  extensional → same_linear_constraint c c' → first_match c' = first_match c.
Proof.
  intros Hext Hsame. unfold first_match, _special_constraints. simpl.
  by rewrite !(Hext _ c c' Hsame).
Qed.

(** A loop over constraints none of which matches passes them all on, with
    or without a penalty. *)
Lemma linear_loop_unmatched (sense : Qc) (penalty : option Qc) (cs : list LinearConstraint)
    (acc : Acc) :
  Forall (λ c, first_match c = None) cs →
  linear_loop sense penalty cs acc = (Ok acc, copy_lc <$> cs, concat (printed <$> cs)).
Proof.
  induction 1 as [|c cs Hc _ IH]; [done|]. simpl. rewrite Hc, IH. done.
Qed.

Lemma convert_preserves (problem : loc) (w : World) (P : QuadraticProgram) (l : loc) :
  heap w !! problem = Some P → l ∈ dom (heap w) →
  heap (convert problem w).2 !! l = heap w !! l.
Proof.
  intros Hp Hl. destruct (convert_heap _ _ _ Hp) as [D ->].
  pose proof (src_ref_fresh w) as Hfs. pose proof (dst_ref_fresh w P) as Hfd.
  apply elem_of_dom in Hl as [Q HQ].
  rewrite !lookup_insert_ne; [done|..].
  - intros <-. by rewrite Hfs in HQ.
  - intros <-. rewrite lookup_insert_ne in Hfd; [by rewrite Hfd in HQ|].
    apply src_dst_ne.
Qed.

(** X6: converting a converted problem.  When the test looks at a
    constraint through its name, coefficients, sense and right-hand side
    only, and the penalty is obtained (it is configured, whatever its
    value, or the estimator returns for the destination), [convert] on the
    destination of a successful [convert] succeeds, absorbs nothing and
    returns a new problem with the same name, variables, objective and
    constraints, leaving the first destination as it was. *)
Theorem convert_twice (problem : loc) (w : World) (P : QuadraticProgram) (dst : loc) :
  extensional →
  heap w !! problem = Some P →
  (convert problem w).1 = Ok dst →
  let w1 := (convert problem w).2 in
  (∀ D1, heap w1 !! dst = Some D1 → penalty_resolves w1 D1) →
  ∃ D1 dst2 D2,
    heap w1 !! dst = Some D1
    ∧ (convert dst w1).1 = Ok dst2
    ∧ dst2 ≠ dst
    ∧ heap (convert dst w1).2 !! dst2 = Some D2
    ∧ heap (convert dst w1).2 !! dst = Some D1
    ∧ qp_name D2 = qp_name D1
    ∧ variables D2 = variables D1
    ∧ obj_constant (objective D2) = obj_constant (objective D1)
    ∧ to_dict (obj_linear (objective D2)) = to_dict (obj_linear (objective D1))
    ∧ to_dict (obj_quadratic (objective D2)) = to_dict (obj_quadratic (objective D1))
    ∧ obj_sense (objective D2) = obj_sense (objective D1)
    ∧ Forall2 same_linear_constraint (linear_constraints D1) (linear_constraints D2)
    ∧ Forall2 same_quadratic_constraint (quadratic_constraints D1) (quadratic_constraints D2).
Proof.
  intros Hext Hp Hok w1 Hyes.
  destruct (convert_Ok _ _ _ _ Hp Hok) as (-> & Hall & pen & acc & _ & HD & _).
  fold w1 in HD. set (dst := dst_ref w P) in *. set (D1 := destination P acc) in *.
  destruct (proj1 (penalty_resolves_resolved w1 D1) (Hyes D1 HD)) as [penalty Hres].
  destruct (dst_variables_again _ Hall) as [Hall1 Hvars].
  assert (Hall1' : forallb supported (variables D1) = true) by exact Hall1.
  assert (Hnone : Forall (λ c, first_match c = None) (linear_constraints D1)).
  { subst D1. unfold destination. cbn [linear_constraints].
    apply Forall_fmap, Forall_forall. intros c Hc.
    apply list_elem_of_In, list_elem_of_filter in Hc as [Hc _].
    simpl. rewrite (first_match_extensional c (copy_lc c) Hext (copy_lc_same c)). exact Hc. }
  pose proof (convert_supported _ _ _ _ HD Hres Hall1') as Hrun. cbv zeta in Hrun.
  rewrite (linear_loop_unmatched _ _ _ _ Hnone) in Hrun. cbn [fst snd] in Hrun.
  exists D1, (dst_ref w1 D1), (destination D1 (initial_acc D1)).
  assert (Hin : dst ∈ dom (heap w1)) by (apply elem_of_dom; eauto).
  assert (Hne : dst_ref w1 D1 ≠ dst).
  { intros Heq. pose proof (dst_ref_fresh w1 D1) as Hf. rewrite Heq in Hf.
    rewrite lookup_insert_ne in Hf by (intros E; rewrite <- E in HD;
      by rewrite (src_ref_fresh w1) in HD).
    by rewrite HD in Hf. }
  split; [exact HD|]. split; [by rewrite Hrun|]. split; [exact Hne|].
  split; [rewrite Hrun; cbn [snd heap]; apply lookup_insert_eq|].
  split; [by rewrite (convert_preserves _ _ _ _ HD Hin)|].
  unfold destination, initial_acc.
  cbn [qp_name variables objective obj_constant obj_linear obj_quadratic obj_sense
       linear_constraints quadratic_constraints fst snd].
  split; [done|]. split; [exact Hvars|]. split; [done|].
  split; [by rewrite to_dict_idemp|]. split; [by rewrite to_dict_idemp|]. split; [done|].
  split.
  - rewrite (filter_all _ _ Hnone). apply Forall2_fmap_same, copy_lc_same.
  - apply Forall2_fmap_same, copy_qc_same.
Qed.
End further_composition.

Lemma matches_extensional : extensional (matcher:=matches).
Proof.
  intros sc c c' (Hn & Hl & Hs & Hr). unfold is_special_constraint, matches.
  by rewrite Hl, Hs, Hr.
Qed.

(** X11: [interpret] checks against the copy [convert] took.  When the
    problem that was converted is changed afterwards, in whatever way,
    [interpret] still accepts exactly the vectors with as many entries as
    the problem had variables when it was converted. *)
Theorem interpret_after_change {matcher : Matcher} (problem : loc) (w : World)
    (P : QuadraticProgram) (f : QuadraticProgram → QuadraticProgram) (v : list Qc) :
  heap w !! problem = Some P →
  let w' := (update problem f (convert problem w).2).2 in
  heap w' !! problem = Some (f P)
  ∧ interpret v w'
    = (if decide (length v = length (variables P)) then Ok v
       else Raise (QiskitOptimizationError
         "The number of variables in the passed result differs from that of the original problem."),
       w').
Proof.
  intros Hp w'. destruct (convert_src _ _ _ Hp) as [Hs Hh].
  assert (Hin : problem ∈ dom (heap w)) by (apply elem_of_dom; eauto).
  assert (Hne : problem ≠ src_ref w).
  { intros Heq. rewrite Heq in Hp. by rewrite (src_ref_fresh w) in Hp. }
  split.
  - subst w'. simpl. rewrite lookup_alter_eq, (convert_preserves _ _ _ _ Hp Hin), Hp. done.
  - assert (Hh' : heap w' !! src_ref w = Some P).
    { subst w'. simpl. by rewrite lookup_alter_ne. }
    unfold interpret. rewrite bind_run.
    rewrite (self_src_run _ w' _ _ Hs Hh'). unfold get_num_vars.
    destruct (decide (length v = length (variables P))) as [Heq|Hneq].
    + rewrite decide_False by (intros Hn; by apply Hn). done.
    + by rewrite decide_True.
Qed.

(** ** The further properties at concrete inputs *)

Lemma estimate_dominates_witness :
  let P := two_three 1 (NotFloat 1) in
  let w := estimating P in
  _src (self w) = Some 1%positive
  ∧ heap w !! 1%positive = Some P
  ∧ ¬ has_non_integral_term P
  ∧ 1 + sum_abs (to_dict (obj_linear (objective P)))
      + sum_abs (to_dict (obj_quadratic (objective P))) = Qc_of_Z 6
  ∧ (6 < 2 ^ 53)%Z
  ∧ ∃ v, (_auto_define_penalty w).1 = Ok v ∧ v = Qc_of_Z 6.
Proof.
  intros P w.
  assert (Hn : ¬ has_non_integral_term P).
  { intros Hn. apply non_integral_terms_true in Hn. vm_compute in Hn. discriminate Hn. }
  assert (Hz : 1 + sum_abs (to_dict (obj_linear (objective P)))
                 + sum_abs (to_dict (obj_quadratic (objective P))) = Qc_of_Z 6)
    by by_evaluation.
  assert (Hlt : (6 < 2 ^ 53)%Z) by reflexivity.
  split; [reflexivity|]. split; [reflexivity|]. split; [exact Hn|]. split; [exact Hz|].
  split; [exact Hlt|].
  destruct (estimate_dominates w 1%positive P 6 eq_refl eq_refl Hn Hz Hlt)
    as (v & Hv & Hv6 & _).
  exists v. split; [exact Hv|exact Hv6].
Defined.

Lemma zero_penalty_drops_constraints_witness :
  let w0 := start mixed None in
  let w := (penalty_setter (Some 0) w0).2 in
  heap w0 !! 1%positive = Some mixed
  ∧ forallb supported (variables mixed) = true
  ∧ ∃ dst D,
      (convert (matcher:=matches) 1%positive w).1 = Ok dst
      ∧ heap (convert (matcher:=matches) 1%positive w).2 !! dst = Some D
      ∧ to_dict (obj_quadratic (objective D)) = to_dict (obj_quadratic (objective mixed)).
Proof.
  intros w0 w. split; [reflexivity|]. split; [reflexivity|].
  destruct (zero_penalty_drops_constraints (matcher:=matches) 1%positive w0 mixed
              eq_refl eq_refl) as (dst & D & Hok & HD & _ & _ & Hq & _).
  exists dst, D. split; [exact Hok|]. split; [exact HD|exact Hq].
Defined.

Lemma convert_succeeds_or_unsupported_witness :
  let w0 := mkWorld {[1%positive := mixed]} (mkConverter None None None true) [] [] in
  let w := (penalty_setter (Some (Qc_of_Z 10)) (__init__ None w0).2).2 in
  rtc (use (matcher:=matches)) (__init__ None w0).2 w
  ∧ heap w !! 1%positive = Some mixed
  ∧ forallb supported (variables mixed) = true
  ∧ penalty_resolves w mixed
  ∧ ∃ dst, (convert (matcher:=matches) 1%positive w).1 = Ok dst.
Proof.
  intros w0 w.
  assert (Hr : rtc (use (matcher:=matches)) (__init__ None w0).2 w).
  { apply rtc_once. right. exists (Some (Qc_of_Z 10)). reflexivity. }
  assert (Hyes : penalty_resolves w mixed) by (left; reflexivity).
  split; [exact Hr|]. split; [reflexivity|]. split; [reflexivity|]. split; [exact Hyes|].
  exact (proj1 (convert_succeeds_or_unsupported (matcher:=matches) None w0 w 1%positive
                  mixed Hr eq_refl) eq_refl Hyes).
Defined.

Lemma convert_unsupported_state_witness :
  let w := start semicontinuous (Some 1) in
  let w' := (convert (matcher:=matches) 1%positive w).2 in
  heap w !! 1%positive = Some semicontinuous
  ∧ penalty_resolves w semicontinuous
  ∧ forallb supported (variables semicontinuous) = false
  ∧ ∃ src dst,
      _src (self w') = Some src ∧ _dst (self w') = Some dst
      ∧ heap w' !! dst
        = Some (mkQuadraticProgram "semi" [mkVariable "x0" 0 1 BINARY]
                  (objective (QuadraticProgram_new "semi")) [] []).
Proof.
  intros w w'.
  assert (Hyes : penalty_resolves w semicontinuous) by (left; reflexivity).
  split; [reflexivity|]. split; [exact Hyes|]. split; [reflexivity|].
  destruct (convert_unsupported_state (matcher:=matches) 1%positive w semicontinuous
              eq_refl) as (src & dst & Hs & Hd & _ & _ & _ & _ & HD & _).
  exists src, dst. split; [exact Hs|]. split; [exact Hd|].
  exact (proj1 (HD Hyes eq_refl)).
Defined.

Lemma convert_log_witness :
  let P := two_three 1 (Float (Q2Qc (3 # 2))) in
  let w := start P (Some 1) in
  heap w !! 1%positive = Some P
  ∧ _should_define_penalty (self w) = false
  ∧ log (convert (matcher:=matches) 1%positive w).2 = log w.
Proof.
  intros P w. split; [reflexivity|]. split; [reflexivity|].
  exact (proj1 (convert_log (matcher:=matches) 1%positive w P eq_refl) eq_refl).
Defined.

Lemma convert_stdout_witness :
  let w := start mixed (Some (Qc_of_Z 10)) in
  heap w !! 1%positive = Some mixed
  ∧ (convert (matcher:=matches) 1%positive w).1 = Ok 3%positive
  ∧ length (stdout (convert (matcher:=matches) 1%positive w).2) = 4%nat.
Proof.
  intros w.
  assert (Hok : (convert (matcher:=matches) 1%positive w).1 = Ok 3%positive)
    by (vm_compute; reflexivity).
  split; [reflexivity|]. split; [exact Hok|].
  rewrite (convert_stdout (matcher:=matches) 1%positive w mixed 3%positive eq_refl Hok).
  reflexivity.
Defined.

Lemma penalty_after_convert_witness :
  let P := two_three 1 (NotFloat 1) in
  let w := start P None in
  heap w !! 1%positive = Some P
  ∧ (convert (matcher:=matches) 1%positive w).1 = Ok 3%positive
  ∧ _should_define_penalty (self w) = true
  ∧ ∃ v, (_auto_define_penalty (estimating P)).1 = Ok v
         ∧ penalty (convert (matcher:=matches) 1%positive w).2
           = (Ok (Some v), (convert (matcher:=matches) 1%positive w).2).
Proof.
  intros P w.
  assert (Hok : (convert (matcher:=matches) 1%positive w).1 = Ok 3%positive)
    by (vm_compute; reflexivity).
  split; [reflexivity|]. split; [exact Hok|]. split; [reflexivity|].
  exact (proj1 (proj2 (penalty_after_convert (matcher:=matches) 1%positive w P eq_refl))
           3%positive Hok eq_refl).
Defined.

Lemma convert_twice_witness :
  let w := start mixed (Some (Qc_of_Z 10)) in
  let w1 := (convert (matcher:=matches) 1%positive w).2 in
  extensional (matcher:=matches)
  ∧ heap w !! 1%positive = Some mixed
  ∧ (convert (matcher:=matches) 1%positive w).1 = Ok 3%positive
  ∧ (∀ D1, heap w1 !! 3%positive = Some D1 → penalty_resolves w1 D1)
  ∧ ∃ D1 dst2 D2,
      heap w1 !! 3%positive = Some D1
      ∧ (convert (matcher:=matches) 3%positive w1).1 = Ok dst2
      ∧ heap (convert (matcher:=matches) 3%positive w1).2 !! dst2 = Some D2
      ∧ variables D2 = variables D1
      ∧ to_dict (obj_quadratic (objective D2)) = to_dict (obj_quadratic (objective D1)).
Proof.
  intros w w1.
  assert (Hok : (convert (matcher:=matches) 1%positive w).1 = Ok 3%positive)
    by (vm_compute; reflexivity).
  assert (Hyes : ∀ D1, heap w1 !! 3%positive = Some D1 → penalty_resolves w1 D1)
    by (intros D1 _; left; reflexivity).
  split; [exact matches_extensional|]. split; [reflexivity|]. split; [exact Hok|].
  split; [exact Hyes|].
  destruct (convert_twice (matcher:=matches) 1%positive w mixed 3%positive
              matches_extensional eq_refl Hok Hyes)
    as (D1 & dst2 & D2 & H1 & H2 & _ & H3 & _ & _ & Hv & _ & _ & Hq & _).
  exists D1, dst2, D2. split; [exact H1|]. split; [exact H2|]. split; [exact H3|].
  split; [exact Hv|exact Hq].
Defined.

Lemma interpret_after_change_witness :
  let P := at_most_one MINIMIZE 0 1 in
  let w := start P None in
  let w' := (update 1%positive (binary_var "x3") (convert (matcher:=matches) 1%positive w).2).2 in
  heap w !! 1%positive = Some P
  ∧ length (variables (binary_var "x3" P)) = 4%nat
  ∧ interpret [1; 0; 0] w' = (Ok [1; 0; 0], w').
Proof.
  intros P w w'. split; [reflexivity|]. split; [reflexivity|].
  exact (proj2 (interpret_after_change (matcher:=matches) 1%positive w P
                  (binary_var "x3") [1; 0; 0] eq_refl)).
Defined.
